(** * RAJA: launch geometry, strided CUDA kernels, Teams launch, policy
      multiplexer and OpenMP index-set traversal

    A shallow embedding of

    - [include/RAJA/policy/cuda/forall.hpp]
      ([getGridDim], [getGlobalIdx_1D_1D], [getGlobalNumThreads_1D_1D],
      [forall_cuda_kernel], [forall]),
    - [include/RAJA/pattern/teams/teams_core.hpp]
      ([ExecPlace], [Teams], [Threads], [Lanes], [Resources],
      [LaunchContext], [teamSync], [launch]),
    - the Apollo multi-policy kernel header
      ([PreLaunchKernel], [PostLaunchKernel], [KernelPolicyGeneratorSingle],
      [KernelPolicyGenerator]),
    - [includes/RAJA/forall_omp_any.hxx]
      ([forall_sum] over an index range, [forall] over a hybrid index set).

    Machine integers are integers of [Z] with the wrap-around written out;
    calls into the CUDA runtime, Apollo and the loop bodies are recorded as
    events of a trace. *)

(** Further parts of the same files are embedded after these: the 3D index
    functions and the counted kernel of the CUDA header ([CudaExt]), the
    feature generator and [kernel_impl] of the Apollo header
    ([ApolloImpl]), and the OpenMP sums over indirection arrays and hybrid
    index sets and the min-loc and max-loc reductions ([OmpExt]). *)

From Stdlib Require Import ZArith List Lia Bool Permutation String.
From Stdlib Require Import Setoid Morphisms.
Import ListNotations.
Local Open Scope Z_scope.

(* ================================================================== *)
(** ** Machine arithmetic *)

Module Machine.

(** [unsigned int]: arithmetic modulo 2^32. *)
Definition u32 (n : Z) : Z := n mod 2 ^ 32.

(** [size_t]: arithmetic modulo 2^64. *)
Definition u64 (n : Z) : Z := n mod 2 ^ 64.

(** Largest value of the kernel's [IndexType].  [forall] instantiates it
    with the type of [std::distance(begin, end)], a [ptrdiff_t]. *)
Definition IndexType_max : Z := 2 ^ 63 - 1.

(** The integers [0, 1, ..., n-1] (empty when [n <= 0]). *)
Definition zrange (n : Z) : list Z := map Z.of_nat (seq 0 (Z.to_nat n)).

End Machine.

(* ================================================================== *)
(** ** namespace RAJA::cuda::impl and the CUDA [forall] *)

Module Cuda.
Import Machine.

(** CUDA's [dim3]: three [unsigned int] components. *)
Record dim3 : Type := mkdim3 { x : Z; y : Z; z : Z }.

(** The converting constructor [dim3(unsigned int vx, vy = 1, vz = 1)],
    applied to a [size_t]. *)
Definition dim3_of (n : Z) : dim3 := mkdim3 (u32 n) 1 1.

(** The function-local [static int num_sm[8]] of [getGridDim]. *)
Definition num_sm_cache : Type := list Z.

Definition num_sm_initial : num_sm_cache := [0; 0; 0; 0; 0; 0; 0; 0].

Definition cache_get (c : num_sm_cache) (device : nat) : Z := nth device c 0.

Fixpoint cache_set (c : num_sm_cache) (device : nat) (v : Z) : num_sm_cache :=
  match c, device with
  | [], _ => []
  | _ :: c', O => v :: c'
  | a :: c', S d => a :: cache_set c' d v
  end.

(** What the build and the device supply to [getGridDim]: the macro
    [MAX_THREADS_PER_SM] (it comes with the CUDA policy headers) and the value
    [cudaDeviceGetAttribute] stores for [cudaDevAttrMultiProcessorCount]. *)
Record hardware : Type := mkhardware {
  MAX_THREADS_PER_SM : Z;
  multiProcessorCount : Z
}.

(** [num_sm[device]] as it stands after the lazy initialisation. *)
Definition num_sm_ready (hw : hardware) (c : num_sm_cache) (device : nat)
  : num_sm_cache :=
  if cache_get c device =? 0
  then cache_set c device (multiProcessorCount hw)
  else c.

(** [dim3 getGridDim(size_t len, dim3 blockDim)].  The block size is a
    product of [unsigned int]s; everything after it is [size_t] arithmetic,
    and the result is narrowed into [dim3].  A block size of zero divides by
    zero: no result. *)
Definition getGridDim (hw : hardware) (c : num_sm_cache) (len : Z)
  (blockDim : dim3) : option (dim3 * num_sm_cache) :=
  let block_size := u32 (u32 (x blockDim * y blockDim) * z blockDim) in
  let device := 0%nat in
  let c' := num_sm_ready hw c device in
  if block_size =? 0 then None
  else
    let max_concurrent_blocks :=
      u64 (u64 (cache_get c' device)
           * (u64 (MAX_THREADS_PER_SM hw) / block_size)) in
    let gridSizeMax := u64 (u64 (len + block_size) - 1) / block_size in
    Some (dim3_of (Z.min gridSizeMax max_concurrent_blocks), c').

(** The built-in variables a device thread reads. *)
Record builtins : Type := mkbuiltins {
  gridDim : dim3;
  blockDim : dim3;
  blockIdx : dim3;
  threadIdx : dim3
}.

(** [getGlobalIdx_1D_1D]: global thread index from a 1D grid of 1D blocks. *)
Definition getGlobalIdx_1D_1D (b : builtins) : Z :=
  let blockId := x (blockIdx b) in
  let threadId := u32 (u32 (blockId * x (blockDim b)) + x (threadIdx b)) in
  threadId.

Definition getGlobalNumThreads_1D_1D (b : builtins) : Z :=
  let numThreads := u32 (x (blockDim b) * x (gridDim b)) in
  numThreads.

(** How one device thread's run of a kernel ends: it returns after a list of
    calls of the loop body, its index arithmetic leaves [IndexType], or it is
    still looping when the fuel is spent. *)
Inductive run (A : Type) : Type :=
| Returns (calls : list A)
| Overflows
| Running.
Arguments Returns {A} calls.
Arguments Overflows {A}.
Arguments Running {A}.

Definition called {A : Type} (a : A) (r : run A) : run A :=
  match r with
  | Returns calls => Returns (a :: calls)
  | Overflows => Overflows
  | Running => Running
  end.

(** [for (; ii < length; ii += gridThreads) body(idx[ii]);] *)
Fixpoint strided_loop {A : Type} (fuel : nat) (idx : Z -> A)
  (length gridThreads ii : Z) : run A :=
  match fuel with
  | O => Running
  | S fuel' =>
    if ii <? length then
      if ii + gridThreads <=? IndexType_max
      then called (idx ii)
             (strided_loop fuel' idx length gridThreads (ii + gridThreads))
      else Overflows
    else Returns []
  end.

(** [forall_cuda_kernel], as one device thread runs it; the trace lists the
    arguments [idx[ii]] the body is called on. *)
Definition forall_cuda_kernel {A : Type} (fuel : nat) (b : builtins)
  (idx : Z -> A) (length : Z) : run A :=
  let ii := getGlobalIdx_1D_1D b in
  let gridThreads := getGlobalNumThreads_1D_1D b in
  strided_loop fuel idx length gridThreads ii.

(** The coordinates below a [dim3] extent, x fastest. *)
Definition dim3_coords (d : dim3) : list dim3 :=
  flat_map (fun k =>
    flat_map (fun j =>
      map (fun i => mkdim3 i j k) (zrange (x d))) (zrange (y d)))
    (zrange (z d)).

(** Every execution unit of a launch [<<<grid, block>>>]. *)
Definition units (grid block : dim3) : list builtins :=
  flat_map (fun bi => map (fun ti => mkbuiltins grid block bi ti)
                          (dim3_coords block))
           (dim3_coords grid).

(** The body calls of all units together, when every unit returns. *)
Fixpoint collect {A : Type} (rs : list (run A)) : option (list A) :=
  match rs with
  | [] => Some []
  | Returns calls :: rs' => option_map (app calls) (collect rs')
  | _ :: _ => None
  end.

Definition kernel_calls {A : Type} (fuel : nat) (grid block : dim3)
  (idx : Z -> A) (length : Z) : option (list A) :=
  collect (map (fun b => forall_cuda_kernel fuel b idx length)
               (units grid block)).

(** The body calls of a run that returned. *)
Definition calls_of {A : Type} (r : run A) : list A :=
  match r with
  | Returns calls => calls
  | _ => []
  end.

Definition run_map {A B : Type} (f : A -> B) (r : run A) : run B :=
  match r with
  | Returns calls => Returns (map f calls)
  | Overflows => Overflows
  | Running => Running
  end.

(** With this much fuel every unit of the launch returns, and together the
    units call the body on [idx[i]] once for each [i] of [0, length). *)
Definition visits_each_once {A : Type} (fuel : nat) (grid block : dim3)
  (idx : Z -> A) (length : Z) : Prop :=
  exists calls,
    kernel_calls fuel grid block idx length = Some calls
    /\ Permutation calls (map idx (zrange length)).

(** The calls [forall] makes into the CUDA runtime, in program order. *)
Inductive event : Type :=
| FT_BEGIN
| KernelLaunch (gridSize blockSize : dim3) (stream : Z) (length : Z)
| PeekAtLastError
| LaunchHook (stream : Z)
| Synchronize (stream : Z)
| SynchronizeDevice
| FT_END.

(** [forall(cuda_exec<BlockSize, Async>, iter, loop_body)] with
    [len = std::distance(begin, end)] ([forall] is a keyword here, hence the
    policy's name in the definition's). *)
Definition forall_cuda_exec (hw : hardware) (BlockSize : Z) (Async : bool)
  (c : num_sm_cache) (len : Z) : option (list event * num_sm_cache) :=
  if (0 <? len) && (0 <? BlockSize) then
    match getGridDim hw c (u64 len) (dim3_of BlockSize) with
    | None => None
    | Some (gridSize, c') =>
      let stream := 0 in
      Some ([FT_BEGIN;
             KernelLaunch gridSize (dim3_of BlockSize) stream len;
             PeekAtLastError;
             LaunchHook stream]
            ++ (if negb Async then [Synchronize stream] else [])
            ++ [FT_END],
            c')
    end
  else Some ([], c).

(** [forall(ExecPolicy<seq_segit, cuda_exec<BlockSize, Async>>, iset,
    loop_body)]: each segment, given by its length, goes through [forall]
    with [cuda_exec<BlockSize, true>]; a synchronise of the device follows
    the loop unless [Async]. *)
Fixpoint forall_segments (hw : hardware) (BlockSize : Z) (c : num_sm_cache)
  (segments : list Z) : option (list event * num_sm_cache) :=
  match segments with
  | [] => Some ([], c)
  | len :: rest =>
    match forall_cuda_exec hw BlockSize true c len with
    | None => None
    | Some (evs, c') =>
      match forall_segments hw BlockSize c' rest with
      | None => None
      | Some (evs', c'') => Some (evs ++ evs', c'')
      end
    end
  end.

Definition forall_seq_segit (hw : hardware) (BlockSize : Z) (Async : bool)
  (c : num_sm_cache) (iset : list Z) : option (list event * num_sm_cache) :=
  match forall_segments hw BlockSize c iset with
  | None => None
  | Some (evs, c') =>
    Some (evs ++ (if negb Async then [SynchronizeDevice] else []), c')
  end.

End Cuda.

(* ================================================================== *)
(** ** RAJA::Teams: resources, launch context and the top-level launch *)

Module TeamsCore.

(** [enum ExecPlace { HOST, DEVICE, NUM_PLACES }], by the value of the
    enumerators.  [DEVICE] exists only in a build with [RAJA_ENABLE_CUDA] or
    [RAJA_ENABLE_HIP]; without it the value 1 is [NUM_PLACES]. *)
Definition ExecPlace : Type := Z.
Definition HOST : ExecPlace := 0.
Definition DEVICE : ExecPlace := 1.
Definition NUM_PLACES (RAJA_ENABLE_DEVICE : bool) : ExecPlace :=
  if RAJA_ENABLE_DEVICE then 2 else 1.

(** [struct Teams { int value[3]; }] and its four constructors. *)
Record Teams : Type := Teams_ijk { Teams_value : Z * Z * Z }.
Definition Teams_default : Teams := Teams_ijk (1, 1, 1).
Definition Teams_i (i : Z) : Teams := Teams_ijk (i, 1, 1).
Definition Teams_ij (i j : Z) : Teams := Teams_ijk (i, j, 1).

(** [struct Threads { int value[3]; }]. *)
Record Threads : Type := Threads_ijk { Threads_value : Z * Z * Z }.
Definition Threads_default : Threads := Threads_ijk (1, 1, 1).
Definition Threads_i (i : Z) : Threads := Threads_ijk (i, 1, 1).
Definition Threads_ij (i j : Z) : Threads := Threads_ijk (i, j, 1).

(** [struct Lanes { int value; }]. *)
Record Lanes : Type := Lanes_i { Lanes_value : Z }.
Definition Lanes_default : Lanes := Lanes_i 0.

(** [struct Resources]: the defaulted constructor and
    [Resources(Teams, Threads)], which leaves [lanes] default-constructed. *)
Record Resources : Type := mkResources {
  teams : Teams;
  threads : Threads;
  lanes : Lanes
}.
Definition Resources_default : Resources :=
  mkResources Teams_default Threads_default Lanes_default.
Definition Resources_of (in_teams : Teams) (in_threads : Threads) : Resources :=
  mkResources in_teams in_threads Lanes_default.

(** [class LaunchContext : public Resources]; the constructor
    [LaunchContext(base, place)] copies [base] into the base sub-object. *)
Record LaunchContext : Type := mkLaunchContext {
  base :> Resources;
  exec_place : ExecPlace
}.

(** What one execution unit holds while it runs a launch body: the context
    it was handed, the rest of the program's state, and how many
    [__syncthreads()] barriers it has waited at. *)
Record unit_state (S : Type) : Type := mkunit_state {
  context : LaunchContext;
  program : S;
  barriers : nat
}.
Arguments mkunit_state {S} context program barriers.
Arguments context {S} u.
Arguments program {S} u.
Arguments barriers {S} u.

(** [LaunchContext::teamSync()].  [RAJA_DEVICE_CODE] is the preprocessor
    symbol of the device compilation pass. *)
Definition teamSync {S : Type} (RAJA_DEVICE_CODE : bool) (u : unit_state S)
  : unit_state S :=
  if RAJA_DEVICE_CODE
  then mkunit_state (context u) (program u) (Datatypes.S (barriers u))
  else u.

(** The runtime place of a context agrees with the pass that compiled the
    code running on it. *)
Definition place_agrees (RAJA_DEVICE_CODE : bool) (ctx : LaunchContext) : Prop :=
  RAJA_DEVICE_CODE = true <-> exec_place ctx = DEVICE.

(** A call either returns or leaves by [throw]. *)
Inductive outcome (R : Type) : Type :=
| Done (result : R)
| Throw (what : string).
Arguments Done {R} result.
Arguments Throw {R} what.

(** [LaunchExecute<POLICY>::exec(ctx, body)]: the template is only declared
    in the header, its specialisations live with each backend. *)
Definition LaunchExecute (BODY R : Type) : Type := LaunchContext -> BODY -> R.

(** [LaunchPolicy<HOST_POLICY, DEVICE_POLICY>], by the executors of its two
    members (the second is absent from a build without a device). *)
Record LaunchPolicy (BODY R : Type) : Type := mkLaunchPolicy {
  host_policy_t : LaunchExecute BODY R;
  device_policy_t : LaunchExecute BODY R
}.
Arguments mkLaunchPolicy {BODY R} host_policy_t device_policy_t.
Arguments host_policy_t {BODY R} l.
Arguments device_policy_t {BODY R} l.

(** [launch<POLICY_LIST>(place, team_resources, body)]. *)
Definition launch {BODY R : Type} (RAJA_ENABLE_DEVICE : bool)
  (POLICY_LIST : LaunchPolicy BODY R) (place : ExecPlace)
  (team_resources : Resources) (body : BODY) : outcome R :=
  if place =? HOST then
    Done (host_policy_t POLICY_LIST (mkLaunchContext team_resources HOST) body)
  else if RAJA_ENABLE_DEVICE && (place =? DEVICE) then
    Done (device_policy_t POLICY_LIST
            (mkLaunchContext team_resources DEVICE) body)
  else Throw "unknown launch place!".

(** Modelled from the spec: the launch strategies themselves, whose
    [LaunchExecute] specialisations are not among the sources.  The spec has
    the chosen strategy invoke [body(context)] in its execution environment,
    "on host: a direct call"; on device the body runs in each execution unit
    with that same context. *)
Definition direct_call {R : Type} : LaunchExecute (LaunchContext -> R) R :=
  fun ctx body => body ctx.

(** What a launch body reads from its context. *)
Definition read_back (ctx : LaunchContext) : Teams * Threads * Lanes :=
  (teams ctx, threads ctx, lanes ctx).

End TeamsCore.

(* ================================================================== *)
(** ** namespace RAJA::policy::apollo_multi *)

Module ApolloMulti.

(** The statement types a kernel policy can start with: the asynchronous
    CUDA kernel statement, for which the hooks are specialised, or any
    other. *)
Inductive statement : Type :=
| CudaKernelAsync
| Statement (tag : nat).

(** A kernel execution policy: a statement list, by its first statement
    ([camp::at_v<ExecutionPolicy, 0>]) and the rest. *)
Record ExecutionPolicy : Type := mkExecutionPolicy {
  stmt_t : statement;
  stmts : list statement
}.

(** Calls into Apollo, the CUDA runtime and [RAJA::kernel]. *)
Inductive event : Type :=
| CallbackPoolGet
| SetIsDoneCallback
| CudaEventRecordStart
| RAJA_kernel (p : ExecutionPolicy)
| CudaEventRecordStop
| RegionEnd.

(** [PreLaunchKernel<stmt_t>::exec(region, context)]. *)
Definition PreLaunchKernel (s : statement) : list event :=
  match s with
  | CudaKernelAsync => [CallbackPoolGet; SetIsDoneCallback; CudaEventRecordStart]
  | Statement _ => []
  end.

(** [PostLaunchKernel<stmt_t>::exec(region, context)]. *)
Definition PostLaunchKernel (s : statement) : list event :=
  match s with
  | CudaKernelAsync => [CudaEventRecordStop; RegionEnd]
  | Statement _ => [RegionEnd]
  end.

(** [KernelPolicyGeneratorSingle<idx, num_policies, KernelPolicyList, ...>
    ::generate(policy, ...)]; [todo] is [num_policies - idx], zero in the
    terminating specialisation. *)
Fixpoint KernelPolicyGeneratorSingle (todo idx : nat)
  (KernelPolicyList : list ExecutionPolicy) (policy : Z) : list event :=
  match todo with
  | O => []
  | S todo' =>
    match nth_error KernelPolicyList idx with
    | None => []
    | Some ExecutionPolicy =>
      if policy =? Z.of_nat idx then
        PreLaunchKernel (stmt_t ExecutionPolicy)
        ++ [RAJA_kernel ExecutionPolicy]
        ++ PostLaunchKernel (stmt_t ExecutionPolicy)
      else KernelPolicyGeneratorSingle todo' (S idx) KernelPolicyList policy
    end
  end.

(** [KernelPolicyGenerator<KernelPolicyList, ...>(policy, ...)]. *)
Definition KernelPolicyGenerator (KernelPolicyList : list ExecutionPolicy)
  (policy : Z) : list event :=
  KernelPolicyGeneratorSingle (List.length KernelPolicyList) 0
    KernelPolicyList policy.

(** What running the variant [p] leaves in the trace: its pre-launch hook,
    the kernel, its post-launch hook. *)
Definition variant_trace (p : ExecutionPolicy) : list event :=
  PreLaunchKernel (stmt_t p) ++ [RAJA_kernel p] ++ PostLaunchKernel (stmt_t p).

End ApolloMulti.

(* ================================================================== *)
(** ** OpenMP execution over index ranges and hybrid index sets *)

Module Omp.
Import Machine.

(** The indices of [for (ii = begin; ii < end; ++ii)]. *)
Definition range_indices (begin end_ : Z) : list Z :=
  map (fun k => begin + k) (zrange (end_ - begin)).

(** The OpenMP runtime as the reductions see it: [omp_get_max_threads()],
    and for a [#pragma omp parallel for] over [begin, end) the iterations in
    an order they may run in, each with the [omp_get_thread_num()] of the
    thread that runs it. *)
Record omp_runtime : Type := mkomp_runtime {
  omp_get_max_threads : nat;
  omp_parallel_for : Z -> Z -> list (Z * nat)
}.

(** The runtime runs every iteration of the loop once, on a thread of the
    team. *)
Definition omp_conforms (rt : omp_runtime) : Prop :=
  forall begin end_,
    Permutation (map fst (omp_parallel_for rt begin end_))
                (range_indices begin end_)
    /\ Forall (fun it => (snd it < omp_get_max_threads rt)%nat)
              (omp_parallel_for rt begin end_).

Fixpoint store {T : Type} (l : list T) (i : nat) (v : T) : list T :=
  match l, i with
  | [], _ => []
  | _ :: l', O => v :: l'
  | a :: l', S i' => a :: store l' i' v
  end.

Section Reduction.

Variable T : Type.
(** [0] converted to [T], and [operator+=] of [T]. *)
Variable zero : T.
Variable add : T -> T -> T.

(** [loop_body(ii, &sum_tmp[omp_get_thread_num()])]: the body reads and
    writes the partial sum of the thread it runs on. *)
Definition sum_iteration (loop_body : Z -> T -> T) (sum_tmp : list T)
  (it : Z * nat) : list T :=
  store sum_tmp (snd it) (loop_body (fst it) (nth (snd it) sum_tmp zero)).

(** [forall_sum(omp_parallel_for_exec, begin, end, sum, loop_body)]; the
    result is the final [*sum]. *)
Definition forall_sum (rt : omp_runtime) (begin end_ : Z) (sum : T)
  (loop_body : Z -> T -> T) : T :=
  let nthreads := omp_get_max_threads rt in
  let sum_tmp := repeat zero nthreads in
  let sum_tmp :=
    fold_left (sum_iteration loop_body) (omp_parallel_for rt begin end_)
              sum_tmp in
  fold_left add sum_tmp sum.

(** The sum of a list of contributions. *)
Definition total (l : list T) : T := fold_right add zero l.

End Reduction.

(** A runtime with two threads, the iterations dealt out by the parity of their position
    in the range. *)
Definition two_threads : omp_runtime :=
  mkomp_runtime 2
    (fun begin end_ =>
       map (fun k => (begin + k, Z.to_nat (k mod 2)))
           (zrange (end_ - begin))).

(** [HybridISet::SegmentType]: the enumerators the traversal names, and any
    further one of the enumeration (declared in [ISet.hxx]). *)
Inductive SegmentType : Type :=
| _Range_
| _RangeStride_
| _Unstructured_
| _Other_ (tag : Z).

(** The index-set objects a segment's [m_segment] pointer can refer to. *)
Inductive ISet : Type :=
| RangeISet (begin end_ : Z)
| RangeStrideISet (begin end_ stride : Z)
| UnstructuredISet (idx : list Z).

(** [HybridISet::Segment]. *)
Record Segment : Type := mkSegment {
  m_type : SegmentType;
  m_segment : ISet
}.

Definition HybridISet : Type := list Segment.

(** A segment execution policy [SEG_EXEC_POLICY_T]: its [forall] overloads
    for a range and for an unstructured index set, by the indices the loop
    body is called on. *)
Class SegExecPolicy : Type := {
  forall_RangeISet : Z -> Z -> list Z;
  forall_UnstructuredISet : list Z -> list Z
}.

(** [forall(omp_parallel_for_exec, const RangeISet&, loop_body)] and
    [forall(omp_parallel_for_exec, const UnstructuredISet&, loop_body)]. *)
#[export] Instance omp_parallel_for_exec : SegExecPolicy := {
  forall_RangeISet begin end_ := range_indices begin end_;
  forall_UnstructuredISet idx := idx
}.

(** The body of the loop over segments: the [switch] on [seg.m_type].  A
    [static_cast] of [m_segment] to a type the object does not have gives no
    result. *)
Definition forall_segment {P : SegExecPolicy} (seg : Segment)
  : option (list Z) :=
  match m_type seg with
  | _Range_ =>
    match m_segment seg with
    | RangeISet begin end_ => Some (forall_RangeISet begin end_)
    | _ => None
    end
  | _Unstructured_ =>
    match m_segment seg with
    | UnstructuredISet idx => Some (forall_UnstructuredISet idx)
    | _ => None
    end
  | _ => Some []
  end.

(** [forall(std::pair<omp_parallel_for_segit, SEG_EXEC_POLICY_T>, is,
    loop_body)]: the calls of the loop body, listed segment after segment.
    The segments are dealt to the threads one at a time, so the calls may
    run in another order; the list stands for which calls are made. *)
Fixpoint forall_HybridISet {P : SegExecPolicy} (is_ : HybridISet)
  : option (list Z) :=
  match is_ with
  | [] => Some []
  | seg :: rest =>
    match forall_segment seg, forall_HybridISet rest with
    | Some calls, Some calls' => Some (calls ++ calls')
    | _, _ => None
    end
  end.


End Omp.

(* ================================================================== *)
(** ** More of RAJA::cuda::impl: 3D indices, the counted kernel *)

Module CudaExt.
Import Machine Cuda.

(** [getGlobalIdx_3D_3D]: global thread index from a 3D grid of 3D blocks,
    every operation in [unsigned int]. *)
Definition getGlobalIdx_3D_3D (b : builtins) : Z :=
  let blockId :=
    u32 (u32 (x (blockIdx b) + u32 (y (blockIdx b) * x (gridDim b)))
         + u32 (u32 (x (gridDim b) * y (gridDim b)) * z (blockIdx b))) in
  let threadId :=
    u32 (u32 (u32 (u32 (blockId
                        * u32 (u32 (x (blockDim b) * y (blockDim b))
                               * z (blockDim b)))
                   + u32 (z (threadIdx b)
                          * u32 (x (blockDim b) * y (blockDim b))))
              + u32 (y (threadIdx b) * x (blockDim b)))
         + x (threadIdx b)) in
  threadId.

Definition getGlobalNumThreads_3D_3D (b : builtins) : Z :=
  let numThreads :=
    u32 (u32 (u32 (u32 (u32 (x (blockDim b) * y (blockDim b))
                        * z (blockDim b))
                   * x (gridDim b))
              * y (gridDim b))
         * z (gridDim b)) in
  numThreads.

(** Equality of [unsigned int] values: congruence modulo 2^32. *)
Definition eq32 (a b : Z) : Prop := u32 a = u32 b.

(** The number of coordinates below an extent, and the rank of a coordinate
    among them, x fastest. *)
Definition volume (d : dim3) : Z := x d * y d * z d.

Definition linear (d c : dim3) : Z := x c + y c * x d + x d * y d * z c.

(** [static_cast<IndexType>(n)] for a 64-bit two's complement
    [IndexType]. *)
Definition to_IndexType (n : Z) : Z := (n + 2 ^ 63) mod 2 ^ 64 - 2 ^ 63.

(** [forall_Icount_cuda_kernel], as one device thread runs it: the loop of
    [forall_cuda_kernel] with the body called on
    [(static_cast<IndexType>(ii + icount), idx[ii])]. *)
Definition forall_Icount_cuda_kernel {A : Type} (fuel : nat) (b : builtins)
  (idx : Z -> A) (length icount : Z) : run (Z * A) :=
  let ii := getGlobalIdx_1D_1D b in
  let gridThreads := getGlobalNumThreads_1D_1D b in
  strided_loop fuel (fun ii => (to_IndexType (ii + icount), idx ii))
               length gridThreads ii.

Definition kernel_calls_Icount {A : Type} (fuel : nat) (grid block : dim3)
  (idx : Z -> A) (length icount : Z) : option (list (Z * A)) :=
  collect (map (fun b => forall_Icount_cuda_kernel fuel b idx length icount)
               (units grid block)).

(** Kernel launches among the runtime calls of a trace. *)
Definition is_launch (e : event) : bool :=
  match e with
  | KernelLaunch _ _ _ _ => true
  | _ => false
  end.

Definition is_stream_sync (e : event) : bool :=
  match e with
  | Synchronize _ => true
  | _ => false
  end.

End CudaExt.

(* ================================================================== *)
(** ** More of apollo_multi: the feature vector and [kernel_impl] *)

Module ApolloImpl.
Import ApolloMulti.

Section Features.

(** [float], and the conversion of a segment's [size()] to it. *)
Variable F : Type.
Variable to_float : Z -> F.

(** [FeatureGeneratorSingle<idx, num_tuples, SegmentTuple>::generate
    (segments, features)]; the tuple is given by the sizes of its segments,
    [todo] is [num_tuples - idx]. *)
Fixpoint FeatureGeneratorSingle (todo idx : nat) (segments : list Z)
  (features : list F) : list F :=
  match todo with
  | O => features
  | S todo' =>
    match nth_error segments idx with
    | None => features
    | Some size =>
      FeatureGeneratorSingle todo' (S idx) segments
                             (features ++ [to_float size])
    end
  end.

(** [FeatureGenerator<SegmentTuple>::generate(segments, features)]. *)
Definition FeatureGenerator (segments : list Z) (features : list F) : list F :=
  FeatureGeneratorSingle (List.length segments) 0 segments features.

(** The function-local statics of [kernel_impl]: the region ([None] for
    [nullptr]; a region by its numbers of features and of policies) and the
    last policy index. *)
Record statics : Type := mkstatics {
  apolloRegion : option (nat * nat);
  policy_index : Z
}.

Definition statics_initial : statics := mkstatics None 0.

(** What [kernel_impl] does, in program order: its calls into Apollo, and
    the events of the multiplexer. *)
Inductive impl_event : Type :=
| GetCallpathOffset
| CallbackDataPoolNew (n m : Z)
| RegionNew (num_features num_policies : nat)
| RegionBegin (features : list F)
| GetPolicyIndex
| Generated (e : event).

(** [kernel_impl(ApolloMultiKernelPolicy<KernelPolicyList>, segments,
    bodies...)]; [selected] is what [apolloRegion->getPolicyIndex(context)]
    returns on this call. *)
Definition kernel_impl (KernelPolicyList : list ExecutionPolicy)
  (segments : list Z) (selected : Z) (st : statics)
  : list impl_event * statics :=
  let init :=
    match apolloRegion st with
    | None =>
      [GetCallpathOffset; CallbackDataPoolNew 64 64;
       RegionNew (List.length segments) (List.length KernelPolicyList)]
    | Some _ => []
    end in
  let region :=
    match apolloRegion st with
    | None => Some (List.length segments, List.length KernelPolicyList)
    | Some r => Some r
    end in
  let features := FeatureGenerator segments [] in
  (init
   ++ [RegionBegin features; GetPolicyIndex]
   ++ map Generated (KernelPolicyGenerator KernelPolicyList selected),
   mkstatics region selected).

(** A run of calls of one instantiation of [kernel_impl], each with its
    segment sizes and the index Apollo selects. *)
Fixpoint kernel_impl_calls (KernelPolicyList : list ExecutionPolicy)
  (calls : list (list Z * Z)) (st : statics) : list impl_event * statics :=
  match calls with
  | [] => ([], st)
  | (segments, selected) :: rest =>
    let (evs, st') := kernel_impl KernelPolicyList segments selected st in
    let (evs', st'') := kernel_impl_calls KernelPolicyList rest st' in
    (evs ++ evs', st'')
  end.

Definition is_RegionNew (e : impl_event) : bool :=
  match e with RegionNew _ _ => true | _ => false end.

Definition is_RegionBegin (e : impl_event) : bool :=
  match e with RegionBegin _ => true | _ => false end.

Definition is_RegionEnd (e : impl_event) : bool :=
  match e with Generated RegionEnd => true | _ => false end.

Definition is_kernel (e : impl_event) : bool :=
  match e with Generated (RAJA_kernel _) => true | _ => false end.

End Features.

Arguments GetCallpathOffset {F}.
Arguments CallbackDataPoolNew {F} n m.
Arguments RegionNew {F} num_features num_policies.
Arguments RegionBegin {F} features.
Arguments GetPolicyIndex {F}.
Arguments Generated {F} e.
Arguments is_RegionNew {F} e.
Arguments is_RegionBegin {F} e.
Arguments is_RegionEnd {F} e.
Arguments is_kernel {F} e.

End ApolloImpl.

(* ================================================================== *)
(** ** More of the OpenMP traversals: indirection arrays, hybrid sums and
       the min/max-loc reductions *)

Module OmpExt.
Import Machine Omp.

Section Sums.

Variable T : Type.
Variable zero : T.
Variable add : T -> T -> T.

(** [forall_sum(omp_parallel_for_exec, idx, len, sum, loop_body)] over an
    indirection array: the loop runs over the positions [k] of [0, len) and
    calls the body on [idx[k]]. *)
Definition forall_sum_indirect (rt : omp_runtime) (idx : Z -> Z) (len : Z)
  (sum : T) (loop_body : Z -> T -> T) : T :=
  let nthreads := omp_get_max_threads rt in
  let sum_tmp := repeat zero nthreads in
  let sum_tmp :=
    fold_left (sum_iteration T zero (fun k p => loop_body (idx k) p))
              (omp_parallel_for rt 0 len) sum_tmp in
  fold_left add sum_tmp sum.

(** [UnstructuredISet::getIndex()] and [getLength()], for an index set
    holding the indices [idx]. *)
Definition getIndex (idx : list Z) : Z -> Z :=
  fun k => nth (Z.to_nat k) idx 0.
Definition getLength (idx : list Z) : Z := Z.of_nat (List.length idx).

(** The [switch] of the hybrid [forall_sum] on one segment, with
    [omp_parallel_for_exec] for [SEG_EXEC_POLICY_T]: the segment's own
    [forall_sum], accumulating into the partial sum [psum] of the thread
    that runs the segment.  A [static_cast] to a type the object does not
    have gives no result. *)
Definition forall_sum_segment (rt : omp_runtime) (seg : Segment) (psum : T)
  (loop_body : Z -> T -> T) : option T :=
  match m_type seg with
  | _Range_ =>
    match m_segment seg with
    | RangeISet begin end_ =>
      Some (forall_sum T zero add rt begin end_ psum loop_body)
    | _ => None
    end
  | _Unstructured_ =>
    match m_segment seg with
    | UnstructuredISet idx =>
      Some (forall_sum_indirect rt (getIndex idx) (getLength idx) psum
                                loop_body)
    | _ => None
    end
  | _ => Some psum
  end.

(** One iteration of the loop over segments, run by thread [snd it]. *)
Definition segment_iteration (rt : omp_runtime) (is_ : HybridISet)
  (loop_body : Z -> T -> T) (sum_tmp : option (list T)) (it : Z * nat)
  : option (list T) :=
  match sum_tmp, nth_error is_ (Z.to_nat (fst it)) with
  | Some tmp, Some seg =>
    match forall_sum_segment rt seg (nth (snd it) tmp zero) loop_body with
    | Some v => Some (store tmp (snd it) v)
    | None => None
    end
  | _, _ => None
  end.

(** [forall_sum(std::pair<omp_parallel_for_segit, omp_parallel_for_exec>,
    is, sum, loop_body)]: the final [*sum]. *)
Definition forall_sum_HybridISet (rt : omp_runtime) (is_ : HybridISet)
  (sum : T) (loop_body : Z -> T -> T) : option T :=
  let nthreads := omp_get_max_threads rt in
  let sum_tmp := repeat zero nthreads in
  let num_seg := Z.of_nat (List.length is_) in
  match fold_left (segment_iteration rt is_ loop_body)
                  (omp_parallel_for rt 0 num_seg) (Some sum_tmp) with
  | Some sum_tmp => Some (fold_left add sum_tmp sum)
  | None => None
  end.

End Sums.

(** The indices a traversal visits in a segment: those of a range, those an
    unstructured set lists, none for any other segment. *)
Definition seg_indices (seg : Segment) : list Z :=
  match m_type seg, m_segment seg with
  | _Range_, RangeISet begin end_ => range_indices begin end_
  | _Unstructured_, UnstructuredISet idx => idx
  | _, _ => []
  end.

(** The indices of the segment at position [k] of the index set. *)
Definition indices_at (is_ : HybridISet) (k : Z) : list Z :=
  match nth_error is_ (Z.to_nat k) with
  | Some seg => seg_indices seg
  | None => []
  end.

(** The object behind [m_segment] has the type [m_type] announces, for the
    types the traversals cast to. *)
Definition well_typed (seg : Segment) : bool :=
  match m_type seg, m_segment seg with
  | _Range_, RangeISet _ _ => true
  | _Range_, _ => false
  | _Unstructured_, UnstructuredISet _ => true
  | _Unstructured_, _ => false
  | _, _ => true
  end.

Section Loc.

(** The comparison of the final loop: [<] in [forall_minloc], [>] in
    [forall_maxloc], which are the same text otherwise. *)
Variable better : Z -> Z -> bool.

(** [loop_body(ii, &tmp[tid], &loc_tmp[tid])]: the body reads and writes
    the value and the location of the thread it runs on. *)
Definition loc_iteration (loop_body : Z -> Z -> Z -> Z * Z)
  (tmp : list Z * list Z) (it : Z * nat) : list Z * list Z :=
  let r := loop_body (fst it) (nth (snd it) (fst tmp) 0)
                     (nth (snd it) (snd tmp) 0) in
  (store (fst tmp) (snd it) (fst r), store (snd tmp) (snd it) (snd r)).

(** [if (tmp[i] < tmp[0]) { tmp[0] = tmp[i]; loc_tmp[0] = loc_tmp[i]; }] *)
Definition loc_reduce (tmp : list Z * list Z) (i : nat) : list Z * list Z :=
  if better (nth i (fst tmp) 0) (nth 0 (fst tmp) 0)
  then (store (fst tmp) 0 (nth i (fst tmp) 0),
        store (snd tmp) 0 (nth i (snd tmp) 0))
  else tmp.

(** The reduction over an index range; the result is the final
    [( *min, *loc )]. *)
Definition forall_loc (rt : omp_runtime) (begin end_ : Z) (min loc : Z)
  (loop_body : Z -> Z -> Z -> Z * Z) : Z * Z :=
  let nthreads := omp_get_max_threads rt in
  let tmp := (repeat min nthreads, repeat loc nthreads) in
  let tmp := fold_left (loc_iteration loop_body)
                       (omp_parallel_for rt begin end_) tmp in
  let tmp := fold_left loc_reduce (seq 1 (nthreads - 1)) tmp in
  (nth 0 (fst tmp) 0, nth 0 (snd tmp) 0).

(** The usual body of such a reduction over the values [val]:
    [if (val[ii] < *min) { *min = val[ii]; *loc = ii; }]. *)
Definition loc_body (val : Z -> Z) (ii m l : Z) : Z * Z :=
  if better (val ii) m then (val ii, ii) else (m, l).

(** The reduction over an indirection array: the loop runs over the
    positions [k] of [0, len) and calls the body on [idx[k]]. *)
Definition forall_loc_indirect (rt : omp_runtime) (idx : Z -> Z) (len : Z)
  (min loc : Z) (loop_body : Z -> Z -> Z -> Z * Z) : Z * Z :=
  let nthreads := omp_get_max_threads rt in
  let tmp := (repeat min nthreads, repeat loc nthreads) in
  let tmp := fold_left (loc_iteration (fun k => loop_body (idx k)))
                       (omp_parallel_for rt 0 len) tmp in
  let tmp := fold_left loc_reduce (seq 1 (nthreads - 1)) tmp in
  (nth 0 (fst tmp) 0, nth 0 (snd tmp) 0).

(** The usual body as the loop position [k] sees it: the value [v k] is
    compared, the location [p k] recorded ([v = val] and [p k = k] over a
    range, [v k = val (idx k)] and [p = idx] over an indirection array). *)
Definition loc_body_at (v p : Z -> Z) (k m l : Z) : Z * Z :=
  if better (v k) m then (v k, p k) else (m, l).

(** What a thread's slot holds during the reduction from the initial pair
    [(min0, loc0)]: the initial pair, or the value at a seen position that
    beats the initial one, with the location of that position. *)
Definition slot_ok (v p : Z -> Z) (min0 loc0 : Z) (seen : Z -> Prop)
  (a k : Z) : Prop :=
  better min0 a = false
  /\ ((a = min0 /\ k = loc0)
      \/ (exists pos, seen pos /\ k = p pos /\ v pos = a
                      /\ better a min0 = true)).

(** The two arrays of [n] partial results: every slot is as above, and the
    value at every seen position is matched by some slot. *)
Definition partials_ok (v p : Z -> Z) (min0 loc0 : Z) (n : nat)
  (seen : Z -> Prop) (tmp : list Z * list Z) : Prop :=
  List.length (fst tmp) = n /\ List.length (snd tmp) = n
  /\ (forall t, (t < n)%nat ->
        slot_ok v p min0 loc0 seen (nth t (fst tmp) 0) (nth t (snd tmp) 0))
  /\ (forall pos, seen pos ->
        exists t, (t < n)%nat /\ better (v pos) (nth t (fst tmp) 0) = false).

End Loc.

(** [forall_minloc(omp_parallel_for_exec, begin, end, min, loc,
    loop_body)]. *)
Definition forall_minloc : omp_runtime -> Z -> Z -> Z -> Z ->
                           (Z -> Z -> Z -> Z * Z) -> Z * Z :=
  forall_loc Z.ltb.

(** [forall_maxloc(omp_parallel_for_exec, begin, end, max, loc,
    loop_body)]. *)
Definition forall_maxloc : omp_runtime -> Z -> Z -> Z -> Z ->
                           (Z -> Z -> Z -> Z * Z) -> Z * Z :=
  forall_loc Z.gtb.

(** [forall_minloc(omp_parallel_for_exec, idx, len, min, loc, loop_body)]
    and [forall_maxloc(omp_parallel_for_exec, idx, len, max, loc,
    loop_body)] over an indirection array. *)
Definition forall_minloc_indirect : omp_runtime -> (Z -> Z) -> Z -> Z -> Z ->
                                    (Z -> Z -> Z -> Z * Z) -> Z * Z :=
  forall_loc_indirect Z.ltb.

Definition forall_maxloc_indirect : omp_runtime -> (Z -> Z) -> Z -> Z -> Z ->
                                    (Z -> Z -> Z -> Z * Z) -> Z * Z :=
  forall_loc_indirect Z.gtb.

End OmpExt.

(* ================================================================== *)
(** * Properties *)

(** ** Integer ranges *)

Module RangeFacts.
Import Machine.

Lemma in_zrange (n v : Z) : In v (zrange n) <-> 0 <= v < n.
Proof.
  unfold zrange. rewrite in_map_iff. split.
  - intros [k [<- Hk]]. apply in_seq in Hk. lia.
  - intros Hv. exists (Z.to_nat v). rewrite in_seq. split; lia.
Qed.

Lemma NoDup_zrange (n : Z) : NoDup (zrange n).
Proof.
  unfold zrange. apply Finite.Injective_map_NoDup.
  - intros a b Hab. lia.
  - apply seq_NoDup.
Qed.

Create HintDb ranges.
#[export] Hint Resolve NoDup_zrange : ranges.

Lemma zrange_nonpos (n : Z) : n <= 0 -> zrange n = [].
Proof.
  intros Hn. unfold zrange. replace (Z.to_nat n) with 0%nat by lia. reflexivity.
Qed.

Lemma seq_offset (n len start : nat) :
  seq (n + start) len = map (fun k => (n + k)%nat) (seq start len).
Proof.
  revert start. induction len as [|len IH]; intros start; simpl.
  - reflexivity.
  - f_equal. rewrite <- IH. f_equal. lia.
Qed.

Lemma zrange_app (a b : Z) :
  0 <= a -> 0 <= b -> zrange (a + b) = zrange a ++ map (Z.add a) (zrange b).
Proof.
  intros Ha Hb. unfold zrange.
  rewrite Z2Nat.inj_add by lia. rewrite seq_app, map_app. f_equal.
  simpl. rewrite <- (Nat.add_0_r (Z.to_nat a)) at 1.
  rewrite seq_offset, !map_map.
  apply map_ext. intros k. lia.
Qed.

Lemma zrange_one : zrange 1 = [0].
Proof. reflexivity. Qed.

(** A concatenation is duplicate-free when its index list and its pieces
    are, and no element lies in the pieces of two indices. *)
Lemma NoDup_flat_map {A B : Type} (f : A -> list B) (l : list A) :
  NoDup l ->
  (forall a, In a l -> NoDup (f a)) ->
  (forall a a' v, In a l -> In a' l -> In v (f a) -> In v (f a') -> a = a') ->
  NoDup (flat_map f l).
Proof.
  induction l as [|a l IH]; intros Hl Hf Hd; simpl.
  - constructor.
  - inversion Hl as [|? ? Hnotin Hl']; subst.
    apply NoDup_app.
    + apply Hf. now left.
    + apply IH; auto.
      * intros a' Ha'. apply Hf. now right.
      * intros a1 a2 v H1 H2. apply Hd; now right.
    + intros v Hv Hv'. apply in_flat_map in Hv'. destruct Hv' as [a' [Ha' Hv']].
      assert (a = a') by (apply (Hd a a' v); auto; [now left | now right]).
      subst a'. contradiction.
Qed.

End RangeFacts.

(* ================================================================== *)
(** ** The strided kernel *)

Module KernelFacts.
Import Machine Cuda RangeFacts.

Lemma strided_loop_map {A : Type} (idx : Z -> A) (N T : Z) (fuel : nat) :
  forall ii,
    strided_loop fuel idx N T ii
    = run_map idx (strided_loop fuel (fun i => i) N T ii).
Proof.
  induction fuel as [|fuel IH]; intros ii; simpl.
  - reflexivity.
  - destruct (ii <? N); [|reflexivity].
    destruct (ii + T <=? IndexType_max); [|reflexivity].
    rewrite IH. now destruct (strided_loop fuel (fun i => i) N T (ii + T)).
Qed.

(** Multiples of the stride above a start: either the start itself or a
    multiple above the next position. *)
Lemma stride_step (T ii v : Z) :
  0 < T ->
  (ii <= v /\ (v - ii) mod T = 0)
  <-> v = ii \/ (ii + T <= v /\ (v - (ii + T)) mod T = 0).
Proof.
  intros HT. split.
  - intros [Hle Hmod].
    apply Z.mod_divide in Hmod; [|lia]. destruct Hmod as [q Hq].
    destruct (Z.eq_dec q 0) as [->|Hq0]; [left; lia|right].
    assert (1 <= q) by nia. split; [nia|].
    replace (v - (ii + T)) with ((q - 1) * T) by lia. apply Z.mod_mul. lia.
  - intros [->|[Hle Hmod]].
    + split; [lia|]. now rewrite Z.sub_diag.
    + split; [lia|].
      apply Z.mod_divide in Hmod; [|lia]. destruct Hmod as [q Hq].
      replace (v - ii) with ((q + 1) * T) by lia. apply Z.mod_mul. lia.
Qed.

(** One thread's loop: with a positive stride and index arithmetic that
    stays inside [IndexType], the loop returns, having visited exactly the
    positions [ii, ii + T, ii + 2T, ...] below [N], each once. *)
Lemma strided_loop_returns (N T : Z) :
  0 < T -> N + T <= IndexType_max + 1 ->
  forall (fuel : nat) (ii : Z),
    (0 < fuel)%nat -> N - ii < Z.of_nat fuel ->
    exists l,
      strided_loop fuel (fun i => i) N T ii = Returns l
      /\ (forall v, In v l <-> (ii <= v < N /\ (v - ii) mod T = 0))
      /\ NoDup l.
Proof.
  intros HT Hmax. induction fuel as [|fuel IH]; intros ii Hpos Hfuel; [lia|].
  simpl. destruct (Z.ltb_spec ii N) as [Hlt|Hge].
  - destruct (Z.leb_spec (ii + T) IndexType_max) as [_|Hov]; [|lia].
    destruct (IH (ii + T)) as [l [Hrun [Hin Hnd]]]; [lia|lia|].
    rewrite Hrun. exists (ii :: l). split; [reflexivity|]. split.
    + intros v. simpl. rewrite Hin. pose proof (stride_step T ii v HT) as Hs.
      split.
      * intros [<-|[[H1 H2] H3]].
        -- split; [lia|]. now rewrite Z.sub_diag.
        -- split; [lia|]. apply Hs. right. split; [lia|assumption].
      * intros [[H1 H2] H3].
        destruct (proj1 Hs (conj H1 H3)) as [->|[H4 H5]]; [now left|right].
        repeat split; (lia || assumption).
    + constructor; [|assumption]. rewrite Hin. lia.
  - exists []. split; [reflexivity|]. split; [|constructor].
    intros v. simpl. lia.
Qed.

(** A zero stride never leaves the loop. *)
Lemma strided_loop_zero_stride {A : Type} (idx : Z -> A) (N ii : Z) :
  ii < N -> ii <= IndexType_max ->
  forall fuel, strided_loop fuel idx N 0 ii = Running.
Proof.
  intros Hlt Hmax. induction fuel as [|fuel IH]; simpl; [reflexivity|].
  destruct (Z.ltb_spec ii N); [|lia].
  rewrite Z.add_0_r. destruct (Z.leb_spec ii IndexType_max); [|lia].
  now rewrite IH.
Qed.

Lemma collect_all_return {A : Type} (rs : list (run A)) :
  (forall r, In r rs -> exists calls, r = Returns calls) ->
  collect rs = Some (flat_map calls_of rs).
Proof.
  induction rs as [|r rs IH]; intros Hall; simpl; [reflexivity|].
  destruct (Hall r (or_introl eq_refl)) as [calls ->].
  rewrite IH by (intros r' Hr'; apply Hall; now right). reflexivity.
Qed.

Lemma collect_run_map {A B : Type} (f : A -> B) (rs : list (run A)) :
  collect (map (run_map f) rs) = option_map (map f) (collect rs).
Proof.
  induction rs as [|r rs IH]; simpl; [reflexivity|].
  destruct r; simpl; try reflexivity.
  rewrite IH. destruct (collect rs); simpl; [|reflexivity].
  now rewrite map_app.
Qed.

Lemma kernel_calls_map {A : Type} (idx : Z -> A) fuel grid block N :
  kernel_calls fuel grid block idx N
  = option_map (map idx) (kernel_calls fuel grid block (fun i => i) N).
Proof.
  unfold kernel_calls. rewrite <- collect_run_map, map_map. f_equal.
  apply map_ext. intros b. apply strided_loop_map.
Qed.

(** *** One-dimensional launches *)

Lemma map_flat_map {A B C : Type} (g : B -> C) (f : A -> list B) (l : list A) :
  map g (flat_map f l) = flat_map (fun a => map g (f a)) l.
Proof.
  induction l as [|a l IH]; simpl; [reflexivity|].
  now rewrite map_app, IH.
Qed.

Lemma flat_map_map {A B C : Type} (f : B -> list C) (g : A -> B) (l : list A) :
  flat_map f (map g l) = flat_map (fun a => f (g a)) l.
Proof.
  induction l as [|a l IH]; simpl; [reflexivity|]. now rewrite IH.
Qed.

Lemma flat_map_ext_in {A B : Type} (f g : A -> list B) (l : list A) :
  (forall a, In a l -> f a = g a) -> flat_map f l = flat_map g l.
Proof.
  induction l as [|a l IH]; intros H; simpl; [reflexivity|].
  rewrite (H a (or_introl eq_refl)), IH; [reflexivity|].
  intros a' Ha'. apply H. now right.
Qed.

(** Rows of [bx] consecutive integers, one row per block. *)
Lemma zrange_rows (bx : Z) (n : nat) :
  0 <= bx ->
  flat_map (fun b => map (fun t => b * bx + t) (zrange bx))
           (zrange (Z.of_nat n))
  = zrange (Z.of_nat n * bx).
Proof.
  intros Hbx. induction n as [|n IH].
  - reflexivity.
  - replace (Z.of_nat (S n)) with (Z.of_nat n + 1) by lia.
    rewrite zrange_app by lia. rewrite flat_map_app, IH.
    rewrite zrange_one. simpl. rewrite app_nil_r.
    replace ((Z.of_nat n + 1) * bx) with (Z.of_nat n * bx + bx) by lia.
    rewrite zrange_app by nia. f_equal.
    apply map_ext. intros t. lia.
Qed.

Lemma dim3_coords_1D (n : Z) :
  dim3_coords (mkdim3 n 1 1) = map (fun i => mkdim3 i 0 0) (zrange n).
Proof.
  unfold dim3_coords. cbn [x y z]. rewrite zrange_one. cbn [flat_map].
  now rewrite !app_nil_r.
Qed.

Lemma units_1D (gx bx : Z) :
  units (mkdim3 gx 1 1) (mkdim3 bx 1 1)
  = flat_map (fun b =>
      map (fun t => mkbuiltins (mkdim3 gx 1 1) (mkdim3 bx 1 1)
                               (mkdim3 b 0 0) (mkdim3 t 0 0))
          (zrange bx))
      (zrange gx).
Proof.
  unfold units. rewrite !dim3_coords_1D, flat_map_map.
  apply flat_map_ext_in. intros b _. now rewrite map_map.
Qed.

(** In a 1D grid of 1D blocks whose thread count fits [unsigned int], the
    global indices of the units are [0, 1, ..., gx * bx - 1]. *)
Lemma global_ids_1D (gx bx : Z) :
  0 <= gx -> 0 <= bx -> gx * bx < 2 ^ 32 ->
  map getGlobalIdx_1D_1D (units (mkdim3 gx 1 1) (mkdim3 bx 1 1))
  = zrange (gx * bx).
Proof.
  intros Hgx Hbx Hfit. rewrite units_1D, map_flat_map.
  rewrite <- (Z2Nat.id gx) at 2 by lia. rewrite <- zrange_rows by lia.
  rewrite Z2Nat.id by lia.
  apply flat_map_ext_in. intros b Hb. apply in_zrange in Hb.
  rewrite map_map. apply map_ext_in. intros t Ht. apply in_zrange in Ht.
  unfold getGlobalIdx_1D_1D, u32. simpl.
  assert (0 <= b * bx /\ b * bx + t < gx * bx) by nia.
  rewrite (Z.mod_small (b * bx)) by lia. apply Z.mod_small. lia.
Qed.

Lemma units_dims (grid block : dim3) (u : builtins) :
  In u (units grid block) -> gridDim u = grid /\ blockDim u = block.
Proof.
  unfold units. rewrite in_flat_map. intros [bi [_ Hu]].
  apply in_map_iff in Hu. destruct Hu as [ti [<- _]]. now split.
Qed.

(** The runs of a 1D launch, thread by thread in the order of the global
    index. *)
Lemma kernel_runs_1D {A : Type} (fuel : nat) (gx bx : Z) (idx : Z -> A) (N : Z) :
  0 <= gx -> 0 <= bx -> gx * bx < 2 ^ 32 ->
  map (fun b => forall_cuda_kernel fuel b idx N)
      (units (mkdim3 gx 1 1) (mkdim3 bx 1 1))
  = map (strided_loop fuel idx N (gx * bx)) (zrange (gx * bx)).
Proof.
  intros Hgx Hbx Hfit. rewrite <- global_ids_1D by assumption.
  rewrite map_map. apply map_ext_in. intros u Hu.
  destruct (units_dims _ _ _ Hu) as [Hg Hb].
  unfold forall_cuda_kernel, getGlobalNumThreads_1D_1D.
  rewrite Hg, Hb. simpl. unfold u32.
  rewrite (Z.mod_small (bx * gx)) by nia.
  now rewrite (Z.mul_comm bx gx).
Qed.

(** Threads [0 .. T-1] striding by [T] visit [0 .. N-1], each once. *)
Lemma strided_threads_cover (fuel : nat) (N T : Z) :
  0 < T -> N + T <= IndexType_max + 1 -> N < Z.of_nat fuel -> (0 < fuel)%nat ->
  exists calls,
    collect (map (strided_loop fuel (fun i => i) N T) (zrange T)) = Some calls
    /\ Permutation calls (zrange N).
Proof.
  intros HT Hmax Hfuel Hpos.
  assert (Hrun : forall t, 0 <= t ->
            exists l, strided_loop fuel (fun i => i) N T t = Returns l
              /\ (forall v, In v l <-> (t <= v < N /\ (v - t) mod T = 0))
              /\ NoDup l)
    by (intros t Ht; apply strided_loop_returns; lia).
  rewrite collect_all_return.
  2:{ intros r Hr. apply in_map_iff in Hr. destruct Hr as [t [<- Ht]].
      apply in_zrange in Ht. destruct (Hrun t) as [l [-> _]]; [lia|]. now exists l. }
  eexists. split; [reflexivity|]. rewrite flat_map_map.
  apply NoDup_Permutation; auto with ranges.
  - apply NoDup_flat_map; auto with ranges.
    + intros t Ht. apply in_zrange in Ht.
      destruct (Hrun t) as [l [-> [_ Hnd]]]; [lia|]. exact Hnd.
    + intros t t' v Ht Ht' Hv Hv'. apply in_zrange in Ht, Ht'.
      destruct (Hrun t) as [l [El [Hl _]]]; [lia|].
      destruct (Hrun t') as [l' [El' [Hl' _]]]; [lia|].
      rewrite El in Hv. rewrite El' in Hv'. simpl in Hv, Hv'.
      apply Hl in Hv. apply Hl' in Hv'.
      destruct Hv as [_ Hm]. destruct Hv' as [_ Hm'].
      apply Z.mod_divide in Hm; [|lia]. apply Z.mod_divide in Hm'; [|lia].
      destruct Hm as [q Hq]. destruct Hm' as [q' Hq'].
      assert (q = q') by nia. subst q'. lia.
  - intros v. rewrite in_zrange, in_flat_map. split.
    + intros [t [Ht Hv]]. apply in_zrange in Ht.
      destruct (Hrun t) as [l [El [Hl _]]]; [lia|].
      rewrite El in Hv. simpl in Hv. apply Hl in Hv. lia.
    + intros Hv. exists (v mod T).
      pose proof (Z.mod_pos_bound v T HT) as Hb.
      split; [apply in_zrange; lia|].
      destruct (Hrun (v mod T)) as [l [El [Hl _]]]; [lia|].
      rewrite El. simpl. apply Hl. split.
      * pose proof (Z.mod_le v T). lia.
      * rewrite Zminus_mod_idemp_r, Z.sub_diag. reflexivity.
Qed.

(** C1, as amended: for every length [N > 0] and every 1D grid of 1D blocks
    with at least one execution unit whose unit count [gx * bx] fits
    [unsigned int] (and [N + gx * bx] fits [IndexType]), every unit of the
    strided kernel returns and the units together call the loop body on
    [idx[i]] exactly once for each [i] in [0, N): none skipped, none twice,
    however small the grid is. *)
Theorem strided_kernel_1D_visits_each_once {A : Type} (idx : Z -> A)
  (N gx bx : Z) (fuel : nat) :
  0 < N -> 1 <= gx -> 1 <= bx -> gx * bx < 2 ^ 32 ->
  N + gx * bx <= IndexType_max + 1 ->
  N < Z.of_nat fuel ->
  visits_each_once fuel (mkdim3 gx 1 1) (mkdim3 bx 1 1) idx N.
Proof.
  intros HN Hgx Hbx Hfit Hmax Hfuel. unfold visits_each_once.
  rewrite kernel_calls_map. unfold kernel_calls.
  rewrite kernel_runs_1D by lia.
  assert (HT : 0 < gx * bx) by nia.
  destruct (strided_threads_cover fuel N (gx * bx) HT Hmax Hfuel)
    as [calls [-> Hperm]]; [lia|].
  exists (map (fun i => idx i) calls). split; [reflexivity|].
  now apply Permutation_map.
Qed.

Lemma strided_kernel_1D_visits_each_once_witness :
  visits_each_once 11 (mkdim3 2 1 1) (mkdim3 2 1 1) (fun i => i * i) 10.
Proof.
  apply (strided_kernel_1D_visits_each_once (fun i => i * i) 10 2 2 11);
    unfold IndexType_max; lia.
Defined.

(** C1 as stated fails on a block that is not one-dimensional: the kernel
    takes its index from [getGlobalIdx_1D_1D], which reads the x components
    only, so the two units of a (1,2,1) block both start at index 0 and both
    call the body on [idx[0]]. *)
Lemma strided_kernel_2D_block_visits_twice :
  ~ (exists fuel,
       visits_each_once fuel (mkdim3 1 1 1) (mkdim3 1 2 1) (fun i => i) 1).
Proof.
  intros [fuel [calls [Hcalls Hperm]]].
  destruct fuel as [|[|fuel]]; try discriminate Hcalls.
  assert (Hc : calls = [0; 0]).
  { vm_compute in Hcalls. congruence. }
  subst calls. apply Permutation_length in Hperm. discriminate Hperm.
Qed.

(** The unit count is computed in [unsigned int]: on a grid of 2^22 blocks
    of 1024 threads it wraps to a stride of zero, and unit 0 calls the body
    on [idx[0]] for ever. *)
Lemma strided_kernel_wrapped_stride_spins {A : Type} (idx : Z -> A) :
  forall fuel,
    forall_cuda_kernel fuel
      (mkbuiltins (mkdim3 (2 ^ 22) 1 1) (mkdim3 1024 1 1)
                  (mkdim3 0 0 0) (mkdim3 0 0 0))
      idx 1
    = Running.
Proof.
  intros fuel. unfold forall_cuda_kernel.
  change (getGlobalNumThreads_1D_1D _) with 0.
  change (getGlobalIdx_1D_1D _) with 0.
  apply strided_loop_zero_stride; unfold IndexType_max; lia.
Qed.

End KernelFacts.

(* ================================================================== *)
(** ** The grid-size calculator *)

Module GridFacts.
Import Machine Cuda.

(** [(n + b - 1) / b] is the ceiling of [n / b]. *)
Lemma ceil_div_bounds (n b : Z) :
  0 < b -> ((n + b - 1) / b - 1) * b < n <= (n + b - 1) / b * b.
Proof.
  intros Hb.
  pose proof (Z.div_mod (n + b - 1) b ltac:(lia)) as Hdm.
  pose proof (Z.mod_pos_bound (n + b - 1) b Hb) as Hr.
  nia.
Qed.

Lemma ceil_div_pos (n b : Z) : 0 < n -> 0 < b -> 1 <= (n + b - 1) / b.
Proof.
  intros Hn Hb. pose proof (ceil_div_bounds n b Hb). nia.
Qed.

Lemma block_size_exact (blk : dim3) :
  0 <= x blk -> 0 <= y blk -> 0 <= z blk ->
  0 < x blk * y blk * z blk < 2 ^ 32 ->
  u32 (u32 (x blk * y blk) * z blk) = x blk * y blk * z blk.
Proof.
  intros Hx Hy Hz Hbs. unfold u32.
  assert (1 <= z blk) by nia.
  assert (0 <= x blk * y blk <= x blk * y blk * z blk) by nia.
  rewrite (Z.mod_small (x blk * y blk)) by lia.
  apply Z.mod_small. lia.
Qed.

(** C2, as amended: for every work length [N > 0] and block shape with
    positive product [bs], on values that fit the machine types,
    [getGridDim] returns min(ceil(N / bs), units * floor(limit / bs)) in
    the x component of a one-dimensional grid; that value lies in
    [1, maxConcurrentGroups] when [bs <= limit] and there is at least one
    compute unit, and is 0 when [bs] exceeds the per-unit thread limit. *)
Theorem getGridDim_min_of_ceil_and_occupancy (hw : hardware)
  (c : num_sm_cache) (N : Z) (blk : dim3) :
  let bs := x blk * y blk * z blk in
  let computeUnits := cache_get (num_sm_ready hw c 0) 0 in
  let limit := MAX_THREADS_PER_SM hw in
  let naiveGroupCount := (N + bs - 1) / bs in
  let maxConcurrentGroups := computeUnits * (limit / bs) in
  0 < N < 2 ^ 63 ->
  0 <= x blk -> 0 <= y blk -> 0 <= z blk -> 0 < bs < 2 ^ 32 ->
  0 <= computeUnits < 2 ^ 31 -> 0 <= limit < 2 ^ 31 ->
  Z.min naiveGroupCount maxConcurrentGroups < 2 ^ 32 ->
  (naiveGroupCount - 1) * bs < N <= naiveGroupCount * bs
  /\ getGridDim hw c N blk
     = Some (mkdim3 (Z.min naiveGroupCount maxConcurrentGroups) 1 1,
             num_sm_ready hw c 0)
  /\ (bs <= limit -> 1 <= computeUnits ->
      1 <= Z.min naiveGroupCount maxConcurrentGroups <= maxConcurrentGroups)
  /\ (limit < bs -> Z.min naiveGroupCount maxConcurrentGroups = 0).
Proof.
  intros bs computeUnits limit naiveGroupCount maxConcurrentGroups
         HN Hx Hy Hz Hbs Hunits Hlimit Hfit.
  assert (Hq : 0 <= limit / bs <= limit).
  { split; [apply Z.div_pos; lia|].
    apply Z.div_le_upper_bound; [lia|nia]. }
  assert (Hnaive : 1 <= naiveGroupCount) by (apply ceil_div_pos; lia).
  split; [apply ceil_div_bounds; lia|]. split; [|split].
  - unfold getGridDim. rewrite block_size_exact by assumption.
    fold bs. destruct (Z.eqb_spec bs 0) as [E|_]; [lia|].
    fold computeUnits. fold limit. unfold dim3_of, u64, u32.
    rewrite (Z.mod_small computeUnits) by lia.
    rewrite (Z.mod_small limit) by lia.
    rewrite (Z.mod_small (computeUnits * (limit / bs))) by nia.
    rewrite (Z.mod_small (N + bs)) by lia.
    rewrite (Z.mod_small (N + bs - 1)) by lia.
    fold naiveGroupCount. fold maxConcurrentGroups.
    rewrite Z.mod_small; [reflexivity|].
    assert (0 <= maxConcurrentGroups) by (unfold maxConcurrentGroups; nia).
    lia.
  - intros Hle Hone.
    assert (1 <= limit / bs) by (apply Z.div_le_lower_bound; lia).
    assert (1 <= maxConcurrentGroups) by (unfold maxConcurrentGroups; nia).
    lia.
  - intros Hgt. unfold maxConcurrentGroups.
    rewrite (Z.div_small limit bs) by lia. lia.
Qed.

(** The spec's scenario: 1000 elements, blocks of 256 threads, 20 compute
    units of 2048 threads each: 4 groups. *)
Lemma getGridDim_min_of_ceil_and_occupancy_witness :
  getGridDim (mkhardware 2048 20) num_sm_initial 1000 (mkdim3 256 1 1)
  = Some (mkdim3 4 1 1, [20; 0; 0; 0; 0; 0; 0; 0]).
Proof.
  refine (proj1 (proj2
    (getGridDim_min_of_ceil_and_occupancy (mkhardware 2048 20)
       num_sm_initial 1000 (mkdim3 256 1 1) _ _ _ _ _ _ _ _)));
    vm_compute; intuition discriminate.
Defined.

(** C2 as stated fails on a block larger than the per-unit thread limit:
    [MAX_THREADS_PER_SM / block_size] is then 0, and the grid size returned
    is 0, below the lower bound 1 of the claimed interval. *)
Lemma getGridDim_oversized_block_gives_zero :
  getGridDim (mkhardware 2048 20) num_sm_initial 1 (mkdim3 4096 1 1)
  = Some (mkdim3 0 1 1, [20; 0; 0; 0; 0; 0; 0; 0])
  /\ ~ (1 <= 0 <= 20 * (2048 / 4096)).
Proof.
  split; [reflexivity|]. intros [H _]. lia.
Qed.

End GridFacts.

(* ================================================================== *)
(** ** The CUDA forall: degenerate calls, issue check and completion *)

Module ForallFacts.
Import Machine Cuda.

(** C3: when the iterable's length is [<= 0], or the block size is 0,
    [forall] makes no call into the CUDA runtime (no kernel launch, no
    synchronisation), leaves the cache alone and returns normally. *)
Theorem forall_degenerate_is_noop (hw : hardware) (BlockSize : Z)
  (Async : bool) (c : num_sm_cache) (len : Z) :
  len <= 0 \/ BlockSize = 0 ->
  forall_cuda_exec hw BlockSize Async c len = Some ([], c).
Proof.
  intros Hdeg. unfold forall_cuda_exec.
  destruct (Z.ltb_spec 0 len) as [Hlen|_]; [|reflexivity].
  destruct (Z.ltb_spec 0 BlockSize) as [Hbs|_]; [|reflexivity].
  lia.
Qed.

Lemma forall_degenerate_is_noop_witness :
  forall_cuda_exec (mkhardware 2048 20) 256 false num_sm_initial (-3)
  = Some ([], num_sm_initial)
  /\ forall_cuda_exec (mkhardware 2048 20) 0 false num_sm_initial 1000
     = Some ([], num_sm_initial).
Proof.
  split.
  - apply (forall_degenerate_is_noop (mkhardware 2048 20) 256 false
             num_sm_initial (-3)). left. lia.
  - apply (forall_degenerate_is_noop (mkhardware 2048 20) 0 false
             num_sm_initial 1000). right. reflexivity.
Defined.

(** C6, as amended: a call that issues a kernel ([len > 0] and a block size
    in [1, 2^32)) checks for a launch-issue error right after the launch,
    whatever [Async] is; with [Async] false a synchronise of the stream
    follows before the call returns, with [Async] true none does. *)
Theorem forall_issue_check_then_completion (hw : hardware) (BlockSize : Z)
  (Async : bool) (c : num_sm_cache) (len : Z) :
  0 < len -> 0 < BlockSize < 2 ^ 32 ->
  exists gridSize c',
    forall_cuda_exec hw BlockSize Async c len
    = Some ([FT_BEGIN;
             KernelLaunch gridSize (mkdim3 BlockSize 1 1) 0 len;
             PeekAtLastError;
             LaunchHook 0]
            ++ (if Async then [] else [Synchronize 0])
            ++ [FT_END], c').
Proof.
  intros Hlen Hbs. unfold forall_cuda_exec.
  destruct (Z.ltb_spec 0 len) as [_|]; [|lia].
  destruct (Z.ltb_spec 0 BlockSize) as [_|]; [|lia].
  cbn [andb].
  assert (Hd : dim3_of BlockSize = mkdim3 BlockSize 1 1).
  { unfold dim3_of, u32. now rewrite Z.mod_small by lia. }
  rewrite Hd. unfold getGridDim. cbn [x y z].
  replace (u32 (u32 (BlockSize * 1) * 1)) with BlockSize.
  2:{ unfold u32. rewrite !Z.mul_1_r.
      now rewrite !(Z.mod_small BlockSize) by lia. }
  destruct (Z.eqb_spec BlockSize 0) as [|_]; [lia|].
  eexists. eexists. destruct Async; reflexivity.
Qed.

Lemma forall_issue_check_then_completion_witness :
  exists gridSize c',
    forall_cuda_exec (mkhardware 2048 20) 256 false num_sm_initial 1000
    = Some ([FT_BEGIN;
             KernelLaunch gridSize (mkdim3 256 1 1) 0 1000;
             PeekAtLastError;
             LaunchHook 0;
             Synchronize 0;
             FT_END], c').
Proof.
  apply (forall_issue_check_then_completion (mkhardware 2048 20) 256 false
           num_sm_initial 1000); lia.
Defined.

(** C6 as stated fails on a degenerate call: with [Async] false and an
    empty iterable the guard skips the whole launch block, so no stream
    synchronise is performed. *)
Lemma forall_sync_skipped_on_empty :
  ~ (exists evs c',
       forall_cuda_exec (mkhardware 2048 20) 256 false num_sm_initial 0
       = Some (evs, c')
       /\ In (Synchronize 0) evs).
Proof.
  intros [evs [c' [Hrun Hin]]].
  vm_compute in Hrun. inversion Hrun; subst. exact Hin.
Qed.

(** The index-set overload differs: its synchronise is outside any guard,
    so a synchronous traversal of empty segments launches nothing and still
    waits for the device. *)
Lemma forall_seq_segit_empty_segments (hw : hardware) (BlockSize : Z)
  (c : num_sm_cache) (iset : list Z) :
  Forall (fun len => len <= 0) iset ->
  forall_seq_segit hw BlockSize false c iset = Some ([SynchronizeDevice], c).
Proof.
  intros Hempty. unfold forall_seq_segit.
  assert (Hsegs : forall_segments hw BlockSize c iset = Some ([], c)).
  { induction Hempty as [|len rest Hlen _ IH]; simpl; [reflexivity|].
    unfold forall_cuda_exec at 1.
    destruct (Z.ltb_spec 0 len) as [Hpos|_]; [lia|].
    cbn [andb]. now rewrite IH. }
  now rewrite Hsegs.
Qed.

End ForallFacts.

(* ================================================================== *)
(** ** Teams: launch and the launch context *)

Module TeamsFacts.
Import TeamsCore.

(** C5: a place that is neither [HOST] nor [DEVICE] makes [launch] throw at
    once; the outcome is the exception, and the result of neither launch
    strategy. *)
Theorem launch_unknown_place_throws {BODY R : Type}
  (RAJA_ENABLE_DEVICE : bool) (POLICY_LIST : LaunchPolicy BODY R)
  (place : ExecPlace) (team_resources : Resources) (body : BODY) :
  place <> HOST -> place <> DEVICE ->
  launch RAJA_ENABLE_DEVICE POLICY_LIST place team_resources body
  = Throw "unknown launch place!".
Proof.
  intros Hhost Hdev. unfold launch.
  destruct (Z.eqb_spec place HOST) as [E|_]; [contradiction|].
  destruct (Z.eqb_spec place DEVICE) as [E|_]; [contradiction|].
  now rewrite andb_false_r.
Qed.

Lemma launch_unknown_place_throws_witness :
  launch true (mkLaunchPolicy direct_call direct_call) (NUM_PLACES true)
         Resources_default (fun ctx : LaunchContext => exec_place ctx)
  = Throw "unknown launch place!".
Proof.
  apply (launch_unknown_place_throws true
           (mkLaunchPolicy direct_call direct_call) (NUM_PLACES true));
    discriminate.
Defined.

(** In a build without a device backend there is no [DEVICE] case: every
    place but [HOST] throws. *)
Lemma launch_without_device_throws_off_host {BODY R : Type}
  (POLICY_LIST : LaunchPolicy BODY R) (place : ExecPlace)
  (team_resources : Resources) (body : BODY) :
  place <> HOST ->
  launch false POLICY_LIST place team_resources body
  = Throw "unknown launch place!".
Proof.
  intros Hhost. unfold launch.
  destruct (Z.eqb_spec place HOST) as [E|_]; [contradiction|reflexivity].
Qed.

(** C7: [launch] hands the chosen strategy a context whose [Resources] part
    is the descriptor it was given, whatever the strategy; a body called
    with that context reads back the descriptor's teams, threads and lanes,
    and for [Resources(Teams(2,3,4), Threads(8,1,1))] these are (2,3,4),
    (8,1,1) and the default lanes. *)
Theorem launch_resources_round_trip (RAJA_ENABLE_DEVICE : bool)
  (team_resources : Resources) :
  (forall (BODY R : Type) (POLICY_LIST : LaunchPolicy BODY R) (body : BODY),
     launch RAJA_ENABLE_DEVICE POLICY_LIST HOST team_resources body
     = Done (host_policy_t POLICY_LIST
               (mkLaunchContext team_resources HOST) body)
     /\ (RAJA_ENABLE_DEVICE = true ->
         launch RAJA_ENABLE_DEVICE POLICY_LIST DEVICE team_resources body
         = Done (device_policy_t POLICY_LIST
                   (mkLaunchContext team_resources DEVICE) body)))
  /\ (forall place, base (mkLaunchContext team_resources place) = team_resources)
  /\ launch RAJA_ENABLE_DEVICE (mkLaunchPolicy direct_call direct_call)
            HOST team_resources read_back
     = Done (teams team_resources, threads team_resources,
             lanes team_resources)
  /\ (RAJA_ENABLE_DEVICE = true ->
      launch RAJA_ENABLE_DEVICE (mkLaunchPolicy direct_call direct_call)
             DEVICE team_resources read_back
      = Done (teams team_resources, threads team_resources,
              lanes team_resources))
  /\ launch RAJA_ENABLE_DEVICE (mkLaunchPolicy direct_call direct_call)
            HOST (Resources_of (Teams_ijk (2, 3, 4)) (Threads_i 8)) read_back
     = Done (Teams_ijk (2, 3, 4), Threads_ijk (8, 1, 1), Lanes_i 0).
Proof.
  repeat split.
  - intros ->. reflexivity.
  - intros ->. reflexivity.
Qed.

(** Each case of [launch] builds a context whose place is the one of the
    strategy it calls: [HOST] for the host member, [DEVICE] for the device
    member. *)
Lemma launch_contexts_agree (team_resources : Resources) :
  place_agrees false (mkLaunchContext team_resources HOST)
  /\ place_agrees true (mkLaunchContext team_resources DEVICE).
Proof.
  unfold place_agrees. simpl. split; split; (discriminate || reflexivity).
Qed.

Lemma teamSync_host_pass {S : Type} (u : unit_state S) (n : nat) :
  Nat.iter n (teamSync false) u = u.
Proof.
  induction n as [|n IH]; simpl; [reflexivity|]. now rewrite IH.
Qed.

(** In device code every call waits at a barrier, whatever the context's
    place says. *)
Lemma teamSync_device_pass {S : Type} (u : unit_state S) (n : nat) :
  Nat.iter n (teamSync true) u
  = mkunit_state (context u) (program u) (n + barriers u).
Proof.
  induction n as [|n IH]; simpl.
  - now destruct u.
  - rewrite IH. reflexivity.
Qed.

(** C8: on host, that is in code compiled without [RAJA_DEVICE_CODE],
    any number of [teamSync] calls leaves the context, the rest of the
    program state and the barrier count as they were, for every context;
    so it does for every context whose place is [HOST], under any pass that
    agrees with the context's place. *)
Theorem teamSync_host_is_noop {S : Type} (u : unit_state S) (n : nat) :
  Nat.iter n (teamSync false) u = u
  /\ (forall RAJA_DEVICE_CODE,
        place_agrees RAJA_DEVICE_CODE (context u) ->
        exec_place (context u) = HOST ->
        Nat.iter n (teamSync RAJA_DEVICE_CODE) u = u
        /\ barriers (Nat.iter n (teamSync RAJA_DEVICE_CODE) u) = barriers u).
Proof.
  split; [apply teamSync_host_pass|].
  intros dc Hagree Hhost.
  assert (dc = false) as ->.
  { destruct dc; [|reflexivity].
    destruct Hagree as [Hd _]. specialize (Hd eq_refl).
    rewrite Hhost in Hd. discriminate Hd. }
  now rewrite teamSync_host_pass.
Qed.

End TeamsFacts.

(* ================================================================== *)
(** ** The policy-index multiplexer *)

Module MultiplexerFacts.
Import ApolloMulti.

Lemma generate_from (KernelPolicyList : list ExecutionPolicy) (policy : Z) :
  forall todo idx,
    (idx + todo = List.length KernelPolicyList)%nat ->
    (Z.of_nat idx <= policy < Z.of_nat (List.length KernelPolicyList) ->
     exists p,
       nth_error KernelPolicyList (Z.to_nat policy) = Some p
       /\ KernelPolicyGeneratorSingle todo idx KernelPolicyList policy
          = variant_trace p)
    /\ (policy < Z.of_nat idx
        \/ Z.of_nat (List.length KernelPolicyList) <= policy ->
        KernelPolicyGeneratorSingle todo idx KernelPolicyList policy = []).
Proof.
  induction todo as [|todo IH]; intros idx Hlen; simpl.
  - split; [lia|reflexivity].
  - destruct (nth_error KernelPolicyList idx) as [p|] eqn:Hnth.
    2:{ apply nth_error_None in Hnth. lia. }
    destruct (Z.eqb_spec policy (Z.of_nat idx)) as [->|Hne].
    + split; [|lia]. intros _. exists p. rewrite Nat2Z.id. now split.
    + destruct (IH (S idx)) as [IHin IHout]; [lia|]. split.
      * intros Hrange. apply IHin. lia.
      * intros Hrange. apply IHout. lia.
Qed.

(** C4: for a selector [k] in [0, numPolicies) the multiplexer runs the
    variant at index [k] and no other: its pre-launch hook, the kernel, its
    post-launch hook, in that order; for any other [k], negative ones
    included, it runs nothing and raises nothing. *)
Theorem multiplexer_runs_selected_variant
  (KernelPolicyList : list ExecutionPolicy) (k : Z) :
  (0 <= k < Z.of_nat (List.length KernelPolicyList) ->
   exists p,
     nth_error KernelPolicyList (Z.to_nat k) = Some p
     /\ KernelPolicyGenerator KernelPolicyList k
        = PreLaunchKernel (stmt_t p) ++ [RAJA_kernel p]
          ++ PostLaunchKernel (stmt_t p))
  /\ (k < 0 \/ Z.of_nat (List.length KernelPolicyList) <= k ->
      KernelPolicyGenerator KernelPolicyList k = []).
Proof.
  unfold KernelPolicyGenerator.
  destruct (generate_from KernelPolicyList k
              (List.length KernelPolicyList) 0 eq_refl) as [Hin Hout].
  split; [intros Hk; apply Hin; lia | intros Hk; apply Hout; lia].
Qed.

End MultiplexerFacts.

(* ================================================================== *)
(** ** OpenMP: the sum reduction and the hybrid index set *)

Module OmpFacts.
Import Machine Omp RangeFacts.

Lemma store_length {T : Type} (l : list T) (i : nat) (v : T) :
  List.length (store l i v) = List.length l.
Proof.
  revert i. induction l as [|a l IH]; intros [|i]; simpl; auto.
Qed.

Lemma range_indices_empty (begin end_ : Z) :
  end_ <= begin -> range_indices begin end_ = [].
Proof.
  intros H. unfold range_indices. now rewrite zrange_nonpos by lia.
Qed.

Section SumReduction.

Variable T : Type.
Variable zero : T.
Variable add : T -> T -> T.
Hypothesis add_assoc : forall a b c, add a (add b c) = add (add a b) c.
Hypothesis add_comm : forall a b, add a b = add b a.
Hypothesis add_zero_r : forall a, add a zero = a.

Local Abbreviation total := (total T zero add).

Lemma add_zero_l (a : T) : add zero a = a.
Proof. now rewrite add_comm. Qed.

Lemma total_repeat_zero (n : nat) : total (repeat zero n) = zero.
Proof.
  induction n as [|n IH]; simpl; [reflexivity|]. now rewrite IH.
Qed.

Lemma total_app (l l' : list T) : total (l ++ l') = add (total l) (total l').
Proof.
  induction l as [|a l IH]; simpl.
  - now rewrite add_zero_l.
  - now rewrite IH, add_assoc.
Qed.

Lemma total_permutation (l l' : list T) :
  Permutation l l' -> total l = total l'.
Proof.
  induction 1 as [|a l l' _ IH|a b l|l l' l'' _ IH1 _ IH2]; simpl.
  - reflexivity.
  - now rewrite IH.
  - rewrite !add_assoc. now rewrite (add_comm b a).
  - now rewrite IH1.
Qed.

(** The final loop [*sum += sum_tmp[i]] adds the total of the partials. *)
Lemma fold_left_add_total (l : list T) (s : T) :
  fold_left add l s = add s (total l).
Proof.
  revert s. induction l as [|a l IH]; intros s; simpl.
  - now rewrite add_zero_r.
  - now rewrite IH, add_assoc.
Qed.

(** Adding [v] to one thread's partial adds [v] to the total. *)
Lemma total_store_add (l : list T) (i : nat) (v : T) :
  (i < List.length l)%nat ->
  total (store l i (add (nth i l zero) v)) = add (total l) v.
Proof.
  revert i. induction l as [|a l IH]; intros [|i] Hi; simpl in *; try lia.
  - rewrite <- !add_assoc. now rewrite (add_comm v).
  - rewrite IH by lia. now rewrite add_assoc.
Qed.

(** The parallel loop with a body that adds [f ii] to its partial: the
    partials together grow by the contributions of the iterations run. *)
Lemma partials_accumulate (f : Z -> T) (sched : list (Z * nat)) :
  forall sum_tmp,
    Forall (fun it => (snd it < List.length sum_tmp)%nat) sched ->
    total (fold_left (sum_iteration T zero (fun ii p => add p (f ii)))
                     sched sum_tmp)
    = add (total sum_tmp) (total (map f (map fst sched))).
Proof.
  induction sched as [|[ii tid] sched IH]; intros sum_tmp Hall; simpl.
  - now rewrite add_zero_r.
  - inversion Hall as [|? ? Htid Hall']; subst. simpl in Htid.
    rewrite IH.
    + unfold sum_iteration. simpl.
      rewrite total_store_add by assumption. now rewrite add_assoc.
    + unfold sum_iteration. rewrite store_length. exact Hall'.
Qed.

(** C9: [forall_sum] accumulates into [*sum]: whatever the body, the final
    [*sum] is the initial value plus the total of the per-thread partials,
    which start at zero; so with a body that adds a contribution [f ii] to
    its thread's partial the final [*sum] is the initial value plus the
    total of the contributions over [begin, end); and over an empty range
    [*sum] keeps its initial value. *)
Theorem forall_sum_accumulates (rt : omp_runtime) (begin end_ : Z) (s0 : T) :
  omp_conforms rt ->
  (forall loop_body : Z -> T -> T,
     forall_sum T zero add rt begin end_ s0 loop_body
     = add s0 (total (fold_left (sum_iteration T zero loop_body)
                                (omp_parallel_for rt begin end_)
                                (repeat zero (omp_get_max_threads rt)))))
  /\ (forall f : Z -> T,
        forall_sum T zero add rt begin end_ s0 (fun ii p => add p (f ii))
        = add s0 (total (map f (range_indices begin end_))))
  /\ (forall loop_body : Z -> T -> T,
        end_ <= begin ->
        forall_sum T zero add rt begin end_ s0 loop_body = s0).
Proof.
  intros Hrt. destruct (Hrt begin end_) as [Hperm Htids].
  split; [|split].
  - intros loop_body. unfold forall_sum. apply fold_left_add_total.
  - intros f. unfold forall_sum. rewrite fold_left_add_total.
    rewrite partials_accumulate by (now rewrite repeat_length).
    rewrite total_repeat_zero, add_zero_l. f_equal.
    apply total_permutation. now apply Permutation_map.
  - intros loop_body Hempty. unfold forall_sum.
    rewrite range_indices_empty in Hperm by assumption.
    apply Permutation_sym, Permutation_nil in Hperm.
    apply map_eq_nil in Hperm. rewrite Hperm. simpl.
    rewrite fold_left_add_total, total_repeat_zero. apply add_zero_r.
Qed.

End SumReduction.

Lemma two_threads_conforms : omp_conforms two_threads.
Proof.
  intros begin end_. simpl. split.
  - rewrite map_map. simpl. apply Permutation_refl.
  - apply Forall_forall. intros it Hit. apply in_map_iff in Hit.
    destruct Hit as [k [<- _]]. simpl.
    pose proof (Z.mod_pos_bound k 2 ltac:(lia)). lia.
Qed.

Lemma forall_sum_accumulates_witness :
  forall_sum Z 0 Z.add two_threads 3 7 100 (fun ii p => p + ii)
  = 100 + (3 + (4 + (5 + (6 + 0))))
  /\ forall_sum Z 0 Z.add two_threads 7 7 100 (fun ii p => p * ii) = 100.
Proof.
  destruct (forall_sum_accumulates Z 0 Z.add Z.add_assoc Z.add_comm
              Z.add_0_r two_threads 3 7 100 two_threads_conforms)
    as [_ [Hsum _]].
  destruct (forall_sum_accumulates Z 0 Z.add Z.add_assoc Z.add_comm
              Z.add_0_r two_threads 7 7 100 two_threads_conforms)
    as [_ [_ Hempty]].
  split.
  - exact (Hsum (fun ii => ii)).
  - apply Hempty. lia.
Defined.


End OmpFacts.

(* ================================================================== *)
(** ** 3D launches, the counted kernel and the launch geometry at work *)

Module CudaExtFacts.
Import Machine Cuda CudaExt RangeFacts KernelFacts.

(** [unsigned int] arithmetic is arithmetic modulo 2^32: sums and products
    respect the congruence, and a reduction can be dropped under it. *)
#[export] Instance eq32_equiv : Equivalence eq32.
Proof. unfold eq32. split; congruence. Qed.

#[export] Instance eq32_add : Proper (eq32 ==> eq32 ==> eq32) Z.add.
Proof.
  unfold eq32, u32. intros a a' Ha b b' Hb.
  rewrite (Zplus_mod a b), Ha, Hb, <- Zplus_mod. reflexivity.
Qed.

#[export] Instance eq32_mul : Proper (eq32 ==> eq32 ==> eq32) Z.mul.
Proof.
  unfold eq32, u32. intros a a' Ha b b' Hb.
  rewrite (Zmult_mod a b), Ha, Hb, <- Zmult_mod. reflexivity.
Qed.

Lemma u32_eq32 (a : Z) : eq32 (u32 a) a.
Proof. unfold eq32, u32. apply Zmod_mod. Qed.

Lemma u32_exact (a t : Z) : eq32 a t -> 0 <= t < 2 ^ 32 -> u32 a = t.
Proof.
  unfold eq32. intros -> Ht. unfold u32. now apply Z.mod_small.
Qed.

(** Two [unsigned int] values are equal when the exact values they reduce
    are. *)
Ltac same_u32 :=
  match goal with
  | |- u32 ?a = u32 ?b => change (eq32 a b)
  end;
  repeat setoid_rewrite u32_eq32; unfold eq32; apply (f_equal u32).

(** Nested [unsigned int] operations against their exact value. *)
Ltac collapse_u32 :=
  apply u32_exact;
    [repeat setoid_rewrite u32_eq32; unfold eq32; apply (f_equal u32) | ].

Lemma in_dim3_coords (d c : dim3) :
  In c (dim3_coords d)
  <-> (0 <= x c < x d /\ 0 <= y c < y d /\ 0 <= z c < z d).
Proof.
  unfold dim3_coords. rewrite in_flat_map. split.
  - intros [k [Hk Hc]]. apply in_flat_map in Hc. destruct Hc as [j [Hj Hc]].
    apply in_map_iff in Hc. destruct Hc as [i [<- Hi]].
    apply in_zrange in Hk, Hj, Hi. simpl. lia.
  - intros [Hx [Hy Hz]]. exists (z c). split; [now apply in_zrange|].
    apply in_flat_map. exists (y c). split; [now apply in_zrange|].
    apply in_map_iff. exists (x c). split; [now destruct c|now apply in_zrange].
Qed.

Lemma linear_bounds (d c : dim3) :
  0 <= x c < x d -> 0 <= y c < y d -> 0 <= z c < z d ->
  0 <= linear d c < volume d.
Proof.
  intros Hx Hy Hz. unfold linear, volume.
  assert (0 <= y c * x d <= (y d - 1) * x d) by nia.
  assert (0 <= x d * y d * z c <= x d * y d * (z d - 1)) by nia.
  nia.
Qed.

Lemma shifted_rows (c W : Z) (n : nat) :
  0 <= W ->
  flat_map (fun q => map (fun t => c + (q * W + t)) (zrange W))
           (zrange (Z.of_nat n))
  = map (Z.add c) (zrange (Z.of_nat n * W)).
Proof.
  intros HW. rewrite <- zrange_rows by assumption.
  rewrite map_flat_map. apply flat_map_ext. intros q.
  now rewrite map_map.
Qed.

Lemma plane_in_linear_order (d : dim3) (k : Z) :
  0 <= x d -> 0 <= y d ->
  map (linear d)
      (flat_map (fun j => map (fun i => mkdim3 i j k) (zrange (x d)))
                (zrange (y d)))
  = map (fun r => k * (y d * x d) + r) (zrange (y d * x d)).
Proof.
  intros Hx Hy. rewrite map_flat_map.
  remember (Z.to_nat (y d)) as ny eqn:Hny.
  assert (E : y d = Z.of_nat ny) by lia.
  unfold linear. rewrite E.
  change (fun r => k * (Z.of_nat ny * x d) + r)
    with (Z.add (k * (Z.of_nat ny * x d))).
  rewrite <- shifted_rows by assumption.
  apply flat_map_ext. intros j. rewrite map_map.
  apply map_ext. intros i. simpl. ring.
Qed.

(** The coordinates come in the order of their rank. *)
Lemma coords_in_linear_order (d : dim3) :
  0 <= x d -> 0 <= y d -> 0 <= z d ->
  map (linear d) (dim3_coords d) = zrange (volume d).
Proof.
  intros Hx Hy Hz. unfold dim3_coords, volume.
  rewrite map_flat_map.
  replace (x d * y d * z d) with (Z.of_nat (Z.to_nat (z d)) * (y d * x d))
    by (rewrite Z2Nat.id by lia; ring).
  rewrite <- zrange_rows by nia. rewrite Z2Nat.id by lia.
  apply flat_map_ext. intros k. now apply plane_in_linear_order.
Qed.

(** Without wrap-around the 3D index is the block's rank times the block
    volume plus the thread's rank in its block. *)
Lemma getGlobalIdx_3D_3D_exact (grid block bi ti : dim3) :
  In bi (dim3_coords grid) -> In ti (dim3_coords block) ->
  volume grid * volume block < 2 ^ 32 ->
  getGlobalIdx_3D_3D (mkbuiltins grid block bi ti)
  = linear grid bi * volume block + linear block ti.
Proof.
  intros Hbi Hti Hfit.
  apply in_dim3_coords in Hbi. apply in_dim3_coords in Hti.
  destruct Hbi as [Hbx [Hby Hbz]]. destruct Hti as [Htx [Hty Htz]].
  pose proof (linear_bounds grid bi Hbx Hby Hbz) as Hb.
  pose proof (linear_bounds block ti Htx Hty Htz) as Ht.
  unfold getGlobalIdx_3D_3D. cbn [gridDim blockDim blockIdx threadIdx].
  collapse_u32.
  - unfold linear, volume. ring.
  - assert (linear grid bi * volume block <= (volume grid - 1) * volume block)
      by (apply Z.mul_le_mono_nonneg_r; lia).
    nia.
Qed.

Lemma getGlobalNumThreads_3D_3D_exact (grid block bi ti : dim3) :
  0 <= volume grid * volume block < 2 ^ 32 ->
  getGlobalNumThreads_3D_3D (mkbuiltins grid block bi ti)
  = volume grid * volume block.
Proof.
  intros Hfit. unfold getGlobalNumThreads_3D_3D.
  cbn [gridDim blockDim]. collapse_u32; [unfold volume; ring | exact Hfit].
Qed.

Lemma rows_of_ranks {A B : Type} (f : A -> Z) (g : B -> Z) (l : list A)
  (m : list B) (n W : Z) :
  0 <= n -> 0 <= W -> map f l = zrange n -> map g m = zrange W ->
  flat_map (fun a => map (fun b => f a * W + g b) m) l = zrange (n * W).
Proof.
  intros Hn HW Hl Hm.
  rewrite <- (Z2Nat.id n) by lia. rewrite <- zrange_rows by assumption.
  rewrite Z2Nat.id by lia. rewrite <- Hl, <- Hm, flat_map_map.
  apply flat_map_ext. intros a. now rewrite map_map.
Qed.

(** X1: in a 3D grid of 3D blocks whose unit count fits [unsigned int],
    [getGlobalIdx_3D_3D] numbers the units [0, 1, ..., count - 1] without
    gap or repetition (blocks in x-fastest order, threads in x-fastest
    order inside each), and [getGlobalNumThreads_3D_3D] is that count in
    every unit. *)
Theorem global_ids_3D (grid block : dim3) :
  0 <= x grid -> 0 <= y grid -> 0 <= z grid ->
  0 <= x block -> 0 <= y block -> 0 <= z block ->
  volume grid * volume block < 2 ^ 32 ->
  map getGlobalIdx_3D_3D (units grid block)
  = zrange (volume grid * volume block)
  /\ (forall u, In u (units grid block) ->
        getGlobalNumThreads_3D_3D u = volume grid * volume block
        /\ 0 <= getGlobalIdx_3D_3D u < getGlobalNumThreads_3D_3D u)
  /\ NoDup (map getGlobalIdx_3D_3D (units grid block)).
Proof.
  intros Hgx Hgy Hgz Hbx Hby Hbz Hfit.
  assert (Hvg : 0 <= volume grid) by (unfold volume; nia).
  assert (Hvb : 0 <= volume block) by (unfold volume; nia).
  assert (Hids : map getGlobalIdx_3D_3D (units grid block)
                 = zrange (volume grid * volume block)).
  { unfold units. rewrite map_flat_map.
    rewrite <- (rows_of_ranks (linear grid) (linear block)
                  (dim3_coords grid) (dim3_coords block)
                  (volume grid) (volume block))
      by (assumption || now apply coords_in_linear_order).
    apply flat_map_ext_in. intros bi Hbi. rewrite map_map.
    apply map_ext_in. intros ti Hti.
    now apply getGlobalIdx_3D_3D_exact. }
  split; [exact Hids|]. split.
  - intros u Hu.
    assert (Hnum : getGlobalNumThreads_3D_3D u = volume grid * volume block).
    { destruct (units_dims _ _ _ Hu) as [Hg Hb]. destruct u as [g b bi ti].
      simpl in Hg, Hb. subst g b.
      apply getGlobalNumThreads_3D_3D_exact. nia. }
    split; [exact Hnum|]. rewrite Hnum. apply in_zrange.
    rewrite <- Hids. now apply in_map.
  - rewrite Hids. apply NoDup_zrange.
Qed.

Lemma global_ids_3D_witness :
  map getGlobalIdx_3D_3D (units (mkdim3 2 1 2) (mkdim3 1 3 1))
  = zrange (volume (mkdim3 2 1 2) * volume (mkdim3 1 3 1)).
Proof.
  apply (global_ids_3D (mkdim3 2 1 2) (mkdim3 1 3 1)); simpl; lia.
Defined.

(** X2: on a unit of a one-dimensional launch the 3D index and thread count
    are the 1D ones, wrap-around included. *)
Theorem ids_3D_agree_with_1D (b : builtins) :
  y (gridDim b) = 1 -> z (gridDim b) = 1 ->
  y (blockDim b) = 1 -> z (blockDim b) = 1 ->
  y (blockIdx b) = 0 -> z (blockIdx b) = 0 ->
  y (threadIdx b) = 0 -> z (threadIdx b) = 0 ->
  getGlobalIdx_3D_3D b = getGlobalIdx_1D_1D b
  /\ getGlobalNumThreads_3D_3D b = getGlobalNumThreads_1D_1D b.
Proof.
  intros Hgy Hgz Hby Hbz Hiy Hiz Hty Htz.
  unfold getGlobalIdx_3D_3D, getGlobalNumThreads_3D_3D,
         getGlobalIdx_1D_1D, getGlobalNumThreads_1D_1D.
  rewrite Hgy, Hgz, Hby, Hbz, Hiy, Hiz, Hty, Htz.
  split.
  - same_u32. ring.
  - same_u32. ring.
Qed.

Lemma ids_3D_agree_with_1D_witness :
  getGlobalIdx_3D_3D
    (mkbuiltins (mkdim3 (2 ^ 22) 1 1) (mkdim3 1024 1 1)
                (mkdim3 (2 ^ 22 - 1) 0 0) (mkdim3 7 0 0))
  = getGlobalIdx_1D_1D
      (mkbuiltins (mkdim3 (2 ^ 22) 1 1) (mkdim3 1024 1 1)
                  (mkdim3 (2 ^ 22 - 1) 0 0) (mkdim3 7 0 0)).
Proof.
  apply (ids_3D_agree_with_1D
           (mkbuiltins (mkdim3 (2 ^ 22) 1 1) (mkdim3 1024 1 1)
                       (mkdim3 (2 ^ 22 - 1) 0 0) (mkdim3 7 0 0)));
    reflexivity.
Defined.

(** *** The strided kernels over a one-dimensional launch *)

(** The calls of a one-dimensional launch whose unit count fits
    [unsigned int]: every unit returns, and together they call the body
    once per position. *)
Lemma kernel_1D_cover {A : Type} (idx : Z -> A) (N gx bx : Z) (fuel : nat) :
  0 < N -> 1 <= gx -> 1 <= bx -> gx * bx < 2 ^ 32 ->
  N + gx * bx <= IndexType_max + 1 ->
  N < Z.of_nat fuel ->
  exists calls,
    kernel_calls fuel (mkdim3 gx 1 1) (mkdim3 bx 1 1) idx N = Some calls
    /\ Permutation calls (map idx (zrange N)).
Proof.
  intros HN Hgx Hbx Hfit Hmax Hfuel.
  rewrite kernel_calls_map. unfold kernel_calls.
  rewrite kernel_runs_1D by lia.
  assert (HT : 0 < gx * bx) by nia.
  destruct (strided_threads_cover fuel N (gx * bx) HT Hmax Hfuel)
    as [calls [-> Hperm]]; [lia|].
  exists (map idx calls). split; [reflexivity|]. now apply Permutation_map.
Qed.

Lemma to_IndexType_small (n : Z) :
  - 2 ^ 63 <= n <= IndexType_max -> to_IndexType n = n.
Proof.
  unfold to_IndexType, IndexType_max. intros Hn.
  rewrite Z.mod_small by lia. lia.
Qed.

(** X3: the counted kernel on a one-dimensional launch calls the body once
    for each position [i] of [0, N), with the count [icount + i] and the
    element [idx[i]], when the counts stay inside [IndexType]. *)
Theorem counted_kernel_1D_visits_each_once {A : Type} (idx : Z -> A)
  (N icount gx bx : Z) (fuel : nat) :
  0 < N -> 1 <= gx -> 1 <= bx -> gx * bx < 2 ^ 32 ->
  N + gx * bx <= IndexType_max + 1 ->
  N < Z.of_nat fuel ->
  - 2 ^ 63 <= icount -> icount + N <= IndexType_max + 1 ->
  exists calls,
    kernel_calls_Icount fuel (mkdim3 gx 1 1) (mkdim3 bx 1 1) idx N icount
    = Some calls
    /\ Permutation calls (map (fun i => (icount + i, idx i)) (zrange N)).
Proof.
  intros HN Hgx Hbx Hfit Hmax Hfuel Hlo Hhi.
  destruct (kernel_1D_cover
              (fun ii => (to_IndexType (ii + icount), idx ii))
              N gx bx fuel HN Hgx Hbx Hfit Hmax Hfuel)
    as [calls [Hcalls Hperm]].
  exists calls. split; [exact Hcalls|].
  erewrite map_ext_in; [exact Hperm|].
  intros i Hi. apply in_zrange in Hi. cbv beta.
  rewrite to_IndexType_small by lia. f_equal. lia.
Qed.

Lemma counted_kernel_1D_visits_each_once_witness :
  exists calls,
    kernel_calls_Icount 11 (mkdim3 2 1 1) (mkdim3 2 1 1) (fun i => i * i)
                        10 100
    = Some calls
    /\ Permutation calls (map (fun i => (100 + i, i * i)) (zrange 10)).
Proof.
  apply (counted_kernel_1D_visits_each_once (fun i => i * i) 10 100 2 2 11);
    unfold IndexType_max; lia.
Defined.

(** The length of one thread's run: the positions [ii, ii + T, ...] below
    [N] are [ceil ((N - ii) / T)] many. *)
Lemma strided_loop_length (N T : Z) :
  0 < T ->
  forall (fuel : nat) (ii : Z) (l : list Z),
    strided_loop fuel (fun i => i) N T ii = Returns l ->
    Z.of_nat (List.length l) = Z.max 0 ((N - ii + T - 1) / T).
Proof.
  intros HT. induction fuel as [|fuel IH]; intros ii l Hrun; [discriminate|].
  simpl in Hrun. destruct (Z.ltb_spec ii N) as [Hlt|Hge].
  - destruct (ii + T <=? IndexType_max); [|discriminate].
    destruct (strided_loop fuel (fun i => i) N T (ii + T)) as [l'| |] eqn:Hrec;
      try discriminate.
    simpl in Hrun. injection Hrun as <-.
    specialize (IH (ii + T) l' Hrec). simpl List.length.
    rewrite Nat2Z.inj_succ, IH.
    replace (N - ii + T - 1) with (N - (ii + T) + T - 1 + 1 * T) by lia.
    rewrite Z.div_add by lia.
    assert (0 <= (N - (ii + T) + T - 1) / T) by (apply Z.div_pos; lia).
    lia.
  - injection Hrun as <-. simpl.
    assert ((N - ii + T - 1) / T <= 0).
    { apply Z.lt_succ_r. apply Z.div_lt_upper_bound; lia. }
    lia.
Qed.

(** X4: in a one-dimensional launch of [T] units over [N] positions, the
    unit with global index [t] calls the body [ceil ((N - t) / T)] times
    (not at all when [t >= N]); so every unit makes [floor (N / T)] or
    [ceil (N / T)] calls. *)
Theorem strided_kernel_1D_work_per_unit (N gx bx : Z) (fuel : nat)
  (u : builtins) :
  0 < N -> 1 <= gx -> 1 <= bx -> gx * bx < 2 ^ 32 ->
  N + gx * bx <= IndexType_max + 1 ->
  N < Z.of_nat fuel ->
  In u (units (mkdim3 gx 1 1) (mkdim3 bx 1 1)) ->
  exists l,
    forall_cuda_kernel fuel u (fun i => i) N = Returns l
    /\ Z.of_nat (List.length l)
       = Z.max 0 ((N - getGlobalIdx_1D_1D u + gx * bx - 1) / (gx * bx))
    /\ N / (gx * bx) <= Z.of_nat (List.length l)
       <= (N + gx * bx - 1) / (gx * bx).
Proof.
  intros HN Hgx Hbx Hfit Hmax Hfuel Hu.
  assert (HT : 0 < gx * bx) by nia.
  assert (Hid : 0 <= getGlobalIdx_1D_1D u < gx * bx).
  { apply in_zrange. rewrite <- global_ids_1D by lia. now apply in_map. }
  assert (Hrun : forall_cuda_kernel fuel u (fun i => i) N
                 = strided_loop fuel (fun i => i) N (gx * bx)
                                (getGlobalIdx_1D_1D u)).
  { destruct (units_dims _ _ _ Hu) as [Hg Hb].
    unfold forall_cuda_kernel, getGlobalNumThreads_1D_1D.
    rewrite Hg, Hb. simpl. unfold u32.
    rewrite (Z.mod_small (bx * gx)) by nia. now rewrite (Z.mul_comm bx gx). }
  destruct (strided_loop_returns N (gx * bx) HT Hmax fuel
              (getGlobalIdx_1D_1D u)) as [l [Hl _]]; [lia|lia|].
  exists l. rewrite Hrun. split; [exact Hl|].
  pose proof (strided_loop_length N (gx * bx) HT fuel _ l Hl) as Hlen.
  split; [exact Hlen|]. rewrite Hlen.
  set (t := getGlobalIdx_1D_1D u) in *.
  assert (N / (gx * bx) <= (N - t + gx * bx - 1) / (gx * bx)).
  { apply Z.div_le_mono; lia. }
  assert ((N - t + gx * bx - 1) / (gx * bx) <= (N + gx * bx - 1) / (gx * bx)).
  { apply Z.div_le_mono; lia. }
  assert (0 <= N / (gx * bx)) by (apply Z.div_pos; lia).
  lia.
Qed.

Lemma strided_kernel_1D_work_per_unit_witness :
  exists l,
    forall_cuda_kernel 11
      (mkbuiltins (mkdim3 2 1 1) (mkdim3 2 1 1) (mkdim3 1 0 0) (mkdim3 1 0 0))
      (fun i => i) 10
    = Returns l
    /\ Z.of_nat (List.length l)
       = Z.max 0 ((10 - getGlobalIdx_1D_1D
                          (mkbuiltins (mkdim3 2 1 1) (mkdim3 2 1 1)
                                      (mkdim3 1 0 0) (mkdim3 1 0 0))
                   + 2 * 2 - 1) / (2 * 2))
    /\ 10 / (2 * 2) <= Z.of_nat (List.length l) <= (10 + 2 * 2 - 1) / (2 * 2).
Proof.
  apply (strided_kernel_1D_work_per_unit 10 2 2 11
           (mkbuiltins (mkdim3 2 1 1) (mkdim3 2 1 1)
                       (mkdim3 1 0 0) (mkdim3 1 0 0)));
    try (unfold IndexType_max; lia).
  vm_compute. auto.
Defined.

(** *** The grid size at work *)

Lemma cache_set_length (c : num_sm_cache) (d : nat) (v : Z) :
  List.length (cache_set c d v) = List.length c.
Proof.
  revert d. induction c as [|a c IH]; intros [|d]; simpl; auto.
Qed.

Lemma cache_get_set_other (c : num_sm_cache) (d d' : nat) (v : Z) :
  d <> d' -> cache_get (cache_set c d v) d' = cache_get c d'.
Proof.
  unfold cache_get. revert d d'.
  induction c as [|a c IH]; intros [|d] [|d'] Hne; simpl; auto; try congruence.
Qed.

Lemma num_sm_ready_fixed (hw : hardware) (c : num_sm_cache) (device : nat) :
  cache_get c device <> 0 -> num_sm_ready hw c device = c.
Proof.
  intros Hc. unfold num_sm_ready.
  destruct (Z.eqb_spec (cache_get c device) 0); [contradiction|reflexivity].
Qed.

(** X6: [getGridDim] keeps the length of its cache and every slot but that
    of device 0; and once slot 0 holds a non-zero count the device is not
    asked again: the cache stays as it is and the result is the same
    whatever count the device would report now. *)
Theorem num_sm_is_cached_once (hw : hardware) (c : num_sm_cache) (len : Z)
  (blk : dim3) :
  (forall g c',
     getGridDim hw c len blk = Some (g, c') ->
     List.length c' = List.length c
     /\ (forall d, d <> 0%nat -> cache_get c' d = cache_get c d))
  /\ (cache_get c 0 <> 0 ->
      (forall g c', getGridDim hw c len blk = Some (g, c') -> c' = c)
      /\ (forall count,
            getGridDim (mkhardware (MAX_THREADS_PER_SM hw) count) c len blk
            = getGridDim hw c len blk)).
Proof.
  split.
  - intros g c' Hrun. unfold getGridDim in Hrun.
    destruct (_ =? 0); [discriminate|]. injection Hrun as _ <-.
    unfold num_sm_ready. destruct (cache_get c 0 =? 0).
    + split; [apply cache_set_length|].
      intros d Hd. apply cache_get_set_other. congruence.
    + now split.
  - intros Hc. split.
    + intros g c' Hrun. unfold getGridDim in Hrun.
      destruct (_ =? 0); [discriminate|]. injection Hrun as _ <-.
      now apply num_sm_ready_fixed.
    + intros count. unfold getGridDim.
      now rewrite !num_sm_ready_fixed by assumption.
Qed.

(** The value of [getGridDim] on quantities that fit [unsigned int], with
    the result fitting it too. *)
Lemma getGridDim_value (hw : hardware) (c : num_sm_cache) (N : Z) (blk : dim3) :
  let bs := x blk * y blk * z blk in
  let computeUnits := cache_get (num_sm_ready hw c 0) 0 in
  let limit := MAX_THREADS_PER_SM hw in
  0 < N < 2 ^ 63 ->
  0 <= x blk -> 0 <= y blk -> 0 <= z blk -> 0 < bs < 2 ^ 32 ->
  0 <= computeUnits < 2 ^ 32 -> 0 <= limit < 2 ^ 32 ->
  Z.min ((N + bs - 1) / bs) (computeUnits * (limit / bs)) < 2 ^ 32 ->
  getGridDim hw c N blk
  = Some (mkdim3 (Z.min ((N + bs - 1) / bs) (computeUnits * (limit / bs))) 1 1,
          num_sm_ready hw c 0).
Proof.
  intros bs computeUnits limit HN Hx Hy Hz Hbs Hunits Hlimit Hfit.
  assert (Hq : 0 <= limit / bs <= limit).
  { split; [apply Z.div_pos; lia|].
    apply Z.div_le_upper_bound; [lia|nia]. }
  assert (Hnaive : 1 <= (N + bs - 1) / bs)
    by (apply GridFacts.ceil_div_pos; lia).
  assert (Hmaxc : 0 <= computeUnits * (limit / bs) < 2 ^ 64) by nia.
  unfold getGridDim. rewrite GridFacts.block_size_exact by assumption.
  fold bs. destruct (Z.eqb_spec bs 0) as [E|_]; [lia|].
  fold computeUnits. fold limit. unfold dim3_of, u64, u32.
  rewrite (Z.mod_small computeUnits) by lia.
  rewrite (Z.mod_small limit) by lia.
  rewrite (Z.mod_small (computeUnits * (limit / bs))) by lia.
  rewrite (Z.mod_small (N + bs)) by lia.
  rewrite (Z.mod_small (N + bs - 1)) by lia.
  rewrite Z.mod_small by lia. reflexivity.
Qed.

(** X7: the grid [getGridDim] returns never asks for more threads than the
    device holds ([g * bs <= computeUnits * limit]) nor for a block beyond
    the work ([(g - 1) * bs < N]); it covers the work in one pass unless it
    is the occupancy cap. *)
Theorem grid_within_capacity_and_work (hw : hardware) (c : num_sm_cache)
  (N : Z) (blk : dim3) :
  let bs := x blk * y blk * z blk in
  let computeUnits := cache_get (num_sm_ready hw c 0) 0 in
  let limit := MAX_THREADS_PER_SM hw in
  0 < N < 2 ^ 63 ->
  0 <= x blk -> 0 <= y blk -> 0 <= z blk -> 0 < bs < 2 ^ 32 ->
  0 <= computeUnits < 2 ^ 32 -> 0 <= limit < 2 ^ 32 ->
  Z.min ((N + bs - 1) / bs) (computeUnits * (limit / bs)) < 2 ^ 32 ->
  exists g,
    getGridDim hw c N blk = Some (mkdim3 g 1 1, num_sm_ready hw c 0)
    /\ 0 <= g
    /\ g * bs <= computeUnits * limit
    /\ (g - 1) * bs < N
    /\ (N <= g * bs \/ g = computeUnits * (limit / bs)).
Proof.
  intros bs computeUnits limit HN Hx Hy Hz Hbs Hunits Hlimit Hfit.
  eexists. split; [now apply getGridDim_value|].
  fold bs computeUnits limit.
  pose proof (GridFacts.ceil_div_bounds N bs ltac:(lia)) as Hceil.
  assert (Hq : 0 <= limit / bs) by (apply Z.div_pos; lia).
  assert (Hqb : limit / bs * bs <= limit).
  { rewrite Z.mul_comm. apply Z.mul_div_le. lia. }
  assert (Hcap : computeUnits * (limit / bs) * bs <= computeUnits * limit) by nia.
  destruct (Z.min_spec ((N + bs - 1) / bs) (computeUnits * (limit / bs)))
    as [[Hlt ->]|[Hle ->]].
  - repeat split; try nia; left; lia.
  - repeat split; try nia; now right.
Qed.

Lemma grid_within_capacity_and_work_witness :
  exists g,
    getGridDim (mkhardware 2048 20) num_sm_initial 1000000 (mkdim3 256 1 1)
    = Some (mkdim3 g 1 1, num_sm_ready (mkhardware 2048 20) num_sm_initial 0)
    /\ 0 <= g
    /\ g * (256 * 1 * 1) <= 20 * 2048
    /\ (g - 1) * (256 * 1 * 1) < 1000000
    /\ (1000000 <= g * (256 * 1 * 1) \/ g = 20 * (2048 / (256 * 1 * 1))).
Proof.
  apply (grid_within_capacity_and_work (mkhardware 2048 20) num_sm_initial
           1000000 (mkdim3 256 1 1)); vm_compute; intuition discriminate.
Defined.

(** *** forall over iterables and index sets *)

(** A call that issues a kernel, with the grid it launches. *)
Lemma forall_cuda_exec_issued (hw : hardware) (BlockSize : Z) (Async : bool)
  (c : num_sm_cache) (len : Z) :
  0 < len -> 0 < BlockSize < 2 ^ 32 ->
  exists gridSize,
    getGridDim hw c (u64 len) (mkdim3 BlockSize 1 1)
    = Some (gridSize, num_sm_ready hw c 0)
    /\ forall_cuda_exec hw BlockSize Async c len
       = Some ([FT_BEGIN;
                KernelLaunch gridSize (mkdim3 BlockSize 1 1) 0 len;
                PeekAtLastError;
                LaunchHook 0]
               ++ (if Async then [] else [Synchronize 0])
               ++ [FT_END], num_sm_ready hw c 0).
Proof.
  intros Hlen Hbs. unfold forall_cuda_exec.
  destruct (Z.ltb_spec 0 len) as [_|]; [|lia].
  destruct (Z.ltb_spec 0 BlockSize) as [_|]; [|lia].
  cbn [andb].
  assert (Hd : dim3_of BlockSize = mkdim3 BlockSize 1 1).
  { unfold dim3_of, u32. now rewrite Z.mod_small by lia. }
  rewrite Hd.
  destruct (getGridDim hw c (u64 len) (mkdim3 BlockSize 1 1))
    as [[gridSize c']|] eqn:Hgrid.
  - assert (c' = num_sm_ready hw c 0) as ->.
    { unfold getGridDim in Hgrid. destruct (_ =? 0); [discriminate|].
      now injection Hgrid as _ <-. }
    exists gridSize. split; [reflexivity|]. now destruct Async.
  - exfalso. unfold getGridDim in Hgrid. cbn [x y z] in Hgrid.
    replace (u32 (u32 (BlockSize * 1) * 1)) with BlockSize in Hgrid.
    2:{ unfold u32. rewrite !Z.mul_1_r.
        now rewrite !(Z.mod_small BlockSize) by lia. }
    destruct (Z.eqb_spec BlockSize 0); [lia|discriminate].
Qed.

Lemma forall_segments_trace (hw : hardware) (BlockSize : Z) :
  0 < BlockSize < 2 ^ 32 ->
  forall (iset : list Z) (c : num_sm_cache),
  exists evs c',
    forall_segments hw BlockSize c iset = Some (evs, c')
    /\ List.length (filter is_launch evs)
       = List.length (filter (fun len => 0 <? len) iset)
    /\ filter is_stream_sync evs = []
    /\ ~ In SynchronizeDevice evs.
Proof.
  intros Hbs. induction iset as [|len rest IH]; intros c.
  - exists [], c. simpl. intuition.
  - cbn [forall_segments filter]. destruct (Z.ltb_spec 0 len) as [Hpos|Hneg].
    + destruct (forall_cuda_exec_issued hw BlockSize true c len Hpos Hbs)
        as [gridSize [_ ->]].
      destruct (IH (num_sm_ready hw c 0)) as [evs [c' [-> [Hn [Hs Hd]]]]].
      eexists. eexists. split; [reflexivity|].
      cbn. rewrite Hn, Hs. repeat split.
      intros [H|[H|[H|[H|[H|H]]]]]; try discriminate H. contradiction.
    + assert (Hnoop : forall_cuda_exec hw BlockSize true c len = Some ([], c)).
      { unfold forall_cuda_exec.
        destruct (Z.ltb_spec 0 len); [lia|reflexivity]. }
      rewrite Hnoop. destruct (IH c) as [evs [c' [-> [Hn [Hs Hd]]]]].
      exists evs, c'. now repeat split.
Qed.

(** X5: [forall] over an index set launches one kernel for each segment of
    positive length and none for the others, never synchronises a stream
    in between (the segments run with [cuda_exec<BlockSize, true>]), and
    ends with one synchronise of the device exactly when [Async] is
    false. *)
Theorem forall_seq_segit_launches_then_syncs (hw : hardware) (BlockSize : Z)
  (Async : bool) (c : num_sm_cache) (iset : list Z) :
  0 < BlockSize < 2 ^ 32 ->
  exists evs c',
    forall_seq_segit hw BlockSize Async c iset
    = Some (evs ++ (if Async then [] else [SynchronizeDevice]), c')
    /\ List.length (filter is_launch evs)
       = List.length (filter (fun len => 0 <? len) iset)
    /\ filter is_stream_sync evs = []
    /\ ~ In SynchronizeDevice evs.
Proof.
  intros Hbs.
  destruct (forall_segments_trace hw BlockSize Hbs iset c)
    as [evs [c' [Hrun Hrest]]].
  exists evs, c'. split; [|exact Hrest].
  unfold forall_seq_segit. rewrite Hrun. now destruct Async.
Qed.

Lemma forall_seq_segit_launches_then_syncs_witness :
  exists evs c',
    forall_seq_segit (mkhardware 2048 20) 256 false num_sm_initial
                     [1000; 0; 300]
    = Some (evs ++ [SynchronizeDevice], c')
    /\ List.length (filter is_launch evs) = 2%nat
    /\ filter is_stream_sync evs = []
    /\ ~ In SynchronizeDevice evs.
Proof.
  apply (forall_seq_segit_launches_then_syncs (mkhardware 2048 20) 256 false
           num_sm_initial [1000; 0; 300]). lia.
Defined.

(** X8: whenever [forall] issues a kernel for a block size within the
    per-unit thread limit on a device with at least one compute unit (its
    capacity [computeUnits * limit] fitting [unsigned int]), the grid it
    computes and the kernel it launches go together: every unit returns and
    the body is called on each of the [len] elements exactly once. *)
Theorem forall_visits_each_element_once (hw : hardware) (BlockSize : Z)
  (Async : bool) (c : num_sm_cache) (len : Z) :
  let computeUnits := cache_get (num_sm_ready hw c 0) 0 in
  let limit := MAX_THREADS_PER_SM hw in
  0 < len -> len + computeUnits * limit <= IndexType_max + 1 ->
  0 < BlockSize <= limit -> 1 <= computeUnits ->
  computeUnits * limit < 2 ^ 32 ->
  exists gridSize evs c',
    forall_cuda_exec hw BlockSize Async c len = Some (evs, c')
    /\ In (KernelLaunch gridSize (mkdim3 BlockSize 1 1) 0 len) evs
    /\ forall (A : Type) (idx : Z -> A) (fuel : nat),
         len < Z.of_nat fuel ->
         visits_each_once fuel gridSize (mkdim3 BlockSize 1 1) idx len.
Proof.
  intros computeUnits limit Hlen Hmax Hbs Hunits Hcap.
  assert (Hlimit : limit < 2 ^ 32) by nia.
  assert (Hunits32 : computeUnits < 2 ^ 32) by nia.
  assert (HlenI : len < 2 ^ 63) by (unfold IndexType_max in Hmax; nia).
  destruct (forall_cuda_exec_issued hw BlockSize Async c len Hlen)
    as [gridSize [Hgrid Hrun]]; [lia|].
  pose proof (grid_bounds := GridFacts.ceil_div_bounds len BlockSize
                               ltac:(lia)).
  assert (Hq : 1 <= limit / BlockSize <= limit).
  { split; [apply Z.div_le_lower_bound; lia|].
    apply Z.div_le_upper_bound; [lia|nia]. }
  assert (Hqb : limit / BlockSize * BlockSize <= limit).
  { rewrite Z.mul_comm. apply Z.mul_div_le. lia. }
  assert (Hnaive : 1 <= (len + BlockSize - 1) / BlockSize)
    by (apply GridFacts.ceil_div_pos; lia).
  unfold u64 in Hgrid. rewrite (Z.mod_small len) in Hgrid by lia.
  assert (Hmin : Z.min ((len + BlockSize - 1) / BlockSize)
                       (computeUnits * (limit / BlockSize)) < 2 ^ 32).
  { assert (computeUnits * (limit / BlockSize) < 2 ^ 32) by nia. lia. }
  pose proof (getGridDim_value hw c len (mkdim3 BlockSize 1 1)) as Hval.
  cbv zeta in Hval. cbn [x y z] in Hval. rewrite !Z.mul_1_r in Hval.
  fold computeUnits limit in Hval.
  rewrite Hval in Hgrid by lia. injection Hgrid as <-.
  set (g := Z.min ((len + BlockSize - 1) / BlockSize)
                  (computeUnits * (limit / BlockSize))) in *.
  assert (Hg : 1 <= g /\ g * BlockSize <= computeUnits * limit).
  { assert (1 <= computeUnits * (limit / BlockSize)) by nia.
    assert (computeUnits * (limit / BlockSize) * BlockSize
            <= computeUnits * limit) by nia.
    unfold g. split; [lia|].
    assert (Z.min ((len + BlockSize - 1) / BlockSize)
                  (computeUnits * (limit / BlockSize))
            <= computeUnits * (limit / BlockSize)) by lia.
    nia. }
  eexists. eexists. eexists. split; [exact Hrun|]. split.
  - simpl. right. left. reflexivity.
  - intros A idx fuel Hfuel. unfold visits_each_once.
    apply kernel_1D_cover; lia.
Qed.

Lemma forall_visits_each_element_once_witness :
  exists gridSize evs c',
    forall_cuda_exec (mkhardware 2048 20) 256 false num_sm_initial 1000
    = Some (evs, c')
    /\ In (KernelLaunch gridSize (mkdim3 256 1 1) 0 1000) evs
    /\ forall (A : Type) (idx : Z -> A) (fuel : nat),
         1000 < Z.of_nat fuel ->
         visits_each_once fuel gridSize (mkdim3 256 1 1) idx 1000.
Proof.
  apply (forall_visits_each_element_once (mkhardware 2048 20) 256 false
           num_sm_initial 1000); vm_compute; intuition discriminate.
Defined.



(** *** The 1D kernel on a launch that is not one-dimensional *)

Lemma Permutation_flat_map_pointwise {A B : Type} (f g : A -> list B)
  (l : list A) :
  (forall a, In a l -> Permutation (f a) (g a)) ->
  Permutation (flat_map f l) (flat_map g l).
Proof.
  induction l as [|a l IH]; intros H; simpl; [constructor|].
  apply Permutation_app; [apply H; now left|].
  apply IH. intros a' Ha'. apply H. now right.
Qed.

Lemma flat_map_app_perm {A B : Type} (f g : A -> list B) (l : list A) :
  Permutation (flat_map (fun a => f a ++ g a) l)
              (flat_map f l ++ flat_map g l).
Proof.
  induction l as [|a l IH]; simpl; [constructor|].
  rewrite IH. rewrite <- !app_assoc. apply Permutation_app_head.
  rewrite !app_assoc. apply Permutation_app_tail. apply Permutation_app_comm.
Qed.

Lemma flat_map_to_nil {A B : Type} (l : list A) :
  flat_map (fun _ : A => @nil B) l = [].
Proof. induction l; simpl; auto. Qed.

(** Two nested loops may change places. *)
Lemma flat_map_interchange {A B C : Type} (f : A -> B -> list C)
  (la : list A) (lb : list B) :
  Permutation (flat_map (fun a => flat_map (f a) lb) la)
              (flat_map (fun b => flat_map (fun a => f a b) la) lb).
Proof.
  induction la as [|a la IH]; simpl.
  - now rewrite flat_map_to_nil.
  - rewrite IH. symmetry. apply flat_map_app_perm.
Qed.

Lemma flat_map_nested {A B C : Type} (g : B -> list C) (h : A -> list B)
  (l : list A) :
  flat_map g (flat_map h l) = flat_map (fun a => flat_map g (h a)) l.
Proof.
  induction l as [|a l IH]; simpl; [reflexivity|].
  now rewrite flat_map_app, IH.
Qed.

(** [a] times [b] copies are [a * b] copies. *)
Lemma copies_nested {A : Type} (X : list A) (a b : Z) :
  0 <= a -> 0 <= b ->
  flat_map (fun _ => flat_map (fun _ => X) (zrange b)) (zrange a)
  = flat_map (fun _ => X) (zrange (a * b)).
Proof.
  intros Ha Hb. rewrite <- (Z2Nat.id a) by lia.
  induction (Z.to_nat a) as [|n IH]; [reflexivity|].
  replace (Z.of_nat (S n)) with (Z.of_nat n + 1) by lia.
  rewrite zrange_app by lia. rewrite flat_map_app, IH.
  replace ((Z.of_nat n + 1) * b) with (Z.of_nat n * b + b) by lia.
  rewrite zrange_app by nia. rewrite flat_map_app. f_equal.
  rewrite zrange_one. simpl. rewrite app_nil_r.
  now rewrite flat_map_map.
Qed.

(** The 1D indices of the units of any launch: a row of [x block] indices
    for each x coordinate of a block, once for every combination of the y
    and z coordinates of block and thread. *)
Lemma global_ids_1D_any (grid block : dim3) :
  0 <= x grid -> 0 <= x block -> x grid * x block < 2 ^ 32 ->
  0 <= y grid -> 0 <= z grid -> 0 <= y block -> 0 <= z block ->
  Permutation
    (map getGlobalIdx_1D_1D (units grid block))
    (flat_map (fun _ => zrange (x grid * x block))
              (zrange (z grid * (y grid * (z block * y block))))).
Proof.
  intros Hgx Hbx Hfit Hgy Hgz Hby Hbz.
  set (row := fun ib => map (fun it => ib * x block + it) (zrange (x block))).
  assert (Hids : map getGlobalIdx_1D_1D (units grid block)
                 = flat_map (fun kz => flat_map (fun ky =>
                     flat_map (fun ib => flat_map (fun tz =>
                       flat_map (fun ty => row ib) (zrange (y block)))
                       (zrange (z block)))
                     (zrange (x grid))) (zrange (y grid))) (zrange (z grid))).
  { unfold units. rewrite map_flat_map. unfold dim3_coords at 2.
    rewrite flat_map_nested. apply flat_map_ext_in. intros kz Hkz.
    rewrite flat_map_nested. apply flat_map_ext_in. intros ky Hky.
    rewrite flat_map_map. apply flat_map_ext_in. intros ib Hib.
    apply in_zrange in Hib.
    rewrite map_map. unfold dim3_coords. rewrite map_flat_map.
    apply flat_map_ext_in. intros tz Htz. rewrite map_flat_map.
    apply flat_map_ext_in. intros ty Hty. rewrite map_map. unfold row.
    apply map_ext_in. intros it Hit. apply in_zrange in Hit.
    unfold getGlobalIdx_1D_1D, u32. simpl.
    assert (0 <= ib * x block /\ ib * x block + it < x grid * x block) by nia.
    rewrite (Z.mod_small (ib * x block)) by lia. apply Z.mod_small. lia. }
  rewrite Hids.
  rewrite <- (copies_nested _ (z grid)) by nia.
  apply Permutation_flat_map_pointwise. intros kz _.
  rewrite <- (copies_nested _ (y grid)) by nia.
  apply Permutation_flat_map_pointwise. intros ky _.
  rewrite <- (copies_nested _ (z block)) by lia.
  rewrite (flat_map_interchange
             (fun ib tz => flat_map (fun _ => row ib) (zrange (y block)))).
  apply Permutation_flat_map_pointwise. intros tz _.
  rewrite (flat_map_interchange (fun ib (_ : Z) => row ib)).
  apply Permutation_flat_map_pointwise. intros ty _.
  unfold row. rewrite <- (Z2Nat.id (x grid)) by lia.
  rewrite zrange_rows by lia. apply Permutation_refl.
Qed.

Lemma collect_map_returns {A B : Type} (f : B -> run A) (l : list B) :
  (forall b, In b l -> exists calls, f b = Returns calls) ->
  collect (map f l) = Some (flat_map (fun b => calls_of (f b)) l).
Proof.
  intros Hall. rewrite collect_all_return.
  - now rewrite flat_map_map.
  - intros r Hr. apply in_map_iff in Hr. destruct Hr as [b [<- Hb]].
    now apply Hall.
Qed.

(** X18: on any launch shape whose x extents are positive with
    [x grid * x block] fitting [unsigned int], the strided kernel visits
    the positions of [0, N) once for every combination of the y and z
    coordinates of block and thread: [y grid * z grid * y block * z block]
    times each, which is once only when all four extents are 1. *)
Theorem strided_kernel_visits_once_per_yz (A : Type) (idx : Z -> A) (N : Z)
  (grid block : dim3) (fuel : nat) :
  0 < N -> 1 <= x grid -> 1 <= x block -> x grid * x block < 2 ^ 32 ->
  0 <= y grid -> 0 <= z grid -> 0 <= y block -> 0 <= z block ->
  N + x grid * x block <= IndexType_max + 1 ->
  N < Z.of_nat fuel ->
  exists calls,
    kernel_calls fuel grid block idx N = Some calls
    /\ Permutation calls
         (flat_map (fun _ => map idx (zrange N))
                   (zrange (z grid * (y grid * (z block * y block))))).
Proof.
  intros HN Hgx Hbx Hfit Hgy Hgz Hby Hbz Hmax Hfuel.
  set (T := x grid * x block).
  set (m := z grid * (y grid * (z block * y block))).
  assert (HT : 0 < T) by (unfold T; nia).
  pose proof (global_ids_1D_any grid block ltac:(lia) ltac:(lia) Hfit
                Hgy Hgz Hby Hbz) as Hids.
  fold T m in Hids.
  set (F := strided_loop fuel (fun i => i) N T).
  assert (Hruns : map (fun u => forall_cuda_kernel fuel u (fun i => i) N)
                      (units grid block)
                  = map F (map getGlobalIdx_1D_1D (units grid block))).
  { rewrite map_map. apply map_ext_in. intros u Hu.
    destruct (units_dims _ _ _ Hu) as [Hg Hb].
    unfold forall_cuda_kernel, getGlobalNumThreads_1D_1D, F, T.
    rewrite Hg, Hb. unfold u32.
    rewrite (Z.mod_small (x block * x grid)) by nia.
    now rewrite (Z.mul_comm (x block)). }
  assert (HF : forall t, 0 <= t -> exists l, F t = Returns l).
  { intros t Ht.
    destruct (strided_loop_returns N T HT Hmax fuel t) as [l [Hl _]];
      [lia|lia|]. now exists l. }
  assert (Hrow : Permutation (flat_map (fun t => calls_of (F t)) (zrange T))
                             (zrange N)).
  { destruct (strided_threads_cover fuel N T HT Hmax Hfuel ltac:(lia))
      as [calls [Hcalls Hperm]].
    fold F in Hcalls. rewrite collect_map_returns in Hcalls.
    - injection Hcalls as <-. exact Hperm.
    - intros t Ht. apply in_zrange in Ht. apply HF. lia. }
  rewrite kernel_calls_map. unfold kernel_calls. rewrite Hruns.
  rewrite collect_map_returns.
  2:{ intros t Ht. apply HF.
      apply (Permutation_in _ Hids) in Ht. apply in_flat_map in Ht.
      destruct Ht as [_ [_ Ht]]. apply in_zrange in Ht. lia. }
  eexists. split; [reflexivity|].
  rewrite <- (KernelFacts.map_flat_map idx (fun _ => zrange N)).
  apply Permutation_map.
  rewrite (Permutation_flat_map (fun t => calls_of (F t)) Hids).
  rewrite flat_map_nested.
  apply Permutation_flat_map_pointwise. intros _ _. exact Hrow.
Qed.

Lemma strided_kernel_visits_once_per_yz_witness :
  exists calls,
    kernel_calls 4 (mkdim3 1 1 1) (mkdim3 2 3 1) (fun i => i * i) 3
    = Some calls
    /\ Permutation calls
         (flat_map (fun _ => map (fun i => i * i) (zrange 3))
                   (zrange (1 * (1 * (1 * 3))))).
Proof.
  apply (strided_kernel_visits_once_per_yz Z (fun i => i * i) 3
           (mkdim3 1 1 1) (mkdim3 2 3 1) 4);
    unfold IndexType_max; simpl; lia.
Defined.

End CudaExtFacts.

(* ================================================================== *)
(** ** The feature vector and the Apollo region *)

Module ApolloImplFacts.
Import ApolloMulti ApolloImpl MultiplexerFacts.

Section Features.

Variable F : Type.
Variable to_float : Z -> F.

Lemma skipn_cons_nth {A : Type} (l : list A) (n : nat) (a : A) :
  nth_error l n = Some a -> skipn n l = a :: skipn (S n) l.
Proof.
  revert l. induction n as [|n IH]; intros [|b l] Hnth; try discriminate.
  - simpl in Hnth. now injection Hnth as ->.
  - simpl in Hnth. apply IH in Hnth. exact Hnth.
Qed.

Lemma FeatureGeneratorSingle_from (segments : list Z) :
  forall todo idx features,
    (idx + todo = List.length segments)%nat ->
    FeatureGeneratorSingle F to_float todo idx segments features
    = features ++ map to_float (skipn idx segments).
Proof.
  induction todo as [|todo IH]; intros idx features Hlen; simpl.
  - rewrite skipn_all2 by lia. now rewrite app_nil_r.
  - destruct (nth_error segments idx) as [size|] eqn:Hnth.
    2:{ apply nth_error_None in Hnth. lia. }
    rewrite IH by lia. rewrite <- app_assoc. f_equal.
    now rewrite (skipn_cons_nth _ _ _ Hnth).
Qed.

(** X9: [FeatureGenerator] appends to the vector one feature per segment
    of the tuple, the converted size, in the order of the tuple, and leaves
    what the vector held in place. *)
Theorem FeatureGenerator_appends_sizes (segments : list Z)
  (features : list F) :
  FeatureGenerator F to_float segments features
  = features ++ map to_float segments
  /\ List.length (FeatureGenerator F to_float segments features)
     = (List.length features + List.length segments)%nat.
Proof.
  assert (H : FeatureGenerator F to_float segments features
              = features ++ map to_float segments).
  { unfold FeatureGenerator. now rewrite FeatureGeneratorSingle_from by lia. }
  split; [exact H|]. rewrite H, length_app, length_map. reflexivity.
Qed.

Lemma variant_trace_ends_region (p : ExecutionPolicy) :
  List.length (filter (@is_RegionEnd F) (map Generated (variant_trace p)))
  = 1%nat
  /\ List.length (filter (@is_kernel F) (map Generated (variant_trace p)))
     = 1%nat
  /\ last (map (@Generated F) (variant_trace p)) GetPolicyIndex
     = Generated RegionEnd.
Proof.
  unfold variant_trace. destruct p as [[|tag] rest]; simpl; auto.
Qed.

Lemma generator_trace (KernelPolicyList : list ExecutionPolicy) (k : Z) :
  (0 <= k < Z.of_nat (List.length KernelPolicyList) ->
   exists p, nth_error KernelPolicyList (Z.to_nat k) = Some p
             /\ KernelPolicyGenerator KernelPolicyList k = variant_trace p)
  /\ (k < 0 \/ Z.of_nat (List.length KernelPolicyList) <= k ->
      KernelPolicyGenerator KernelPolicyList k = []).
Proof.
  unfold KernelPolicyGenerator.
  destruct (generate_from KernelPolicyList k
              (List.length KernelPolicyList) 0 eq_refl) as [Hin Hout].
  split; [intros Hk; apply Hin; lia | intros Hk; apply Hout; lia].
Qed.

Lemma last_of_app {A : Type} (l l' : list A) (d d' : A) :
  l' <> [] -> last (l ++ l') d = last l' d'.
Proof.
  intros Hne. induction l as [|a l IH]; simpl.
  - destruct l' as [|b l']; [contradiction|]. clear Hne.
    revert b. induction l' as [|c l' IH']; intros b; [reflexivity|].
    exact (IH' c).
  - destruct (l ++ l') eqn:E; [|exact IH].
    apply app_eq_nil in E. destruct E. contradiction.
Qed.

Lemma filter_generated (f : impl_event F -> bool) (l : list event) :
  (forall e, f (Generated e) = false) -> filter f (map Generated l) = [].
Proof.
  intros Hf. induction l as [|e l IH]; simpl; [reflexivity|].
  now rewrite Hf.
Qed.

Lemma filter_init_events (st : statics) (n m : nat)
  (f : impl_event F -> bool) :
  f GetCallpathOffset = false -> f (CallbackDataPoolNew 64 64) = false ->
  f (RegionNew n m) = false ->
  filter f
    match apolloRegion st with
    | None => [GetCallpathOffset; CallbackDataPoolNew 64 64; RegionNew n m]
    | Some _ => []
    end = [].
Proof.
  intros H1 H2 H3. destruct (apolloRegion st); simpl; [reflexivity|].
  now rewrite H1, H2, H3.
Qed.

(** X10: every call of [kernel_impl] begins one region context.  When the
    index Apollo selects is one of the policies, one kernel runs and the
    context is ended once, as the last thing the call does; when it is not,
    no kernel runs and the context is never ended. *)
Theorem kernel_impl_begin_end (KernelPolicyList : list ExecutionPolicy)
  (segments : list Z) (selected : Z) (st : statics) :
  let evs := fst (kernel_impl F to_float KernelPolicyList segments
                              selected st) in
  List.length (filter is_RegionBegin evs) = 1%nat
  /\ In (RegionBegin (map to_float segments)) evs
  /\ (0 <= selected < Z.of_nat (List.length KernelPolicyList) ->
      List.length (filter is_RegionEnd evs) = 1%nat
      /\ List.length (filter is_kernel evs) = 1%nat
      /\ last evs GetPolicyIndex = Generated RegionEnd)
  /\ (selected < 0 \/ Z.of_nat (List.length KernelPolicyList) <= selected ->
      filter is_RegionEnd evs = []
      /\ filter is_kernel evs = []
      /\ last evs GetCallpathOffset = GetPolicyIndex).
Proof.
  intros evs. subst evs. unfold kernel_impl. cbn [fst].
  assert (Hfeat : FeatureGenerator F to_float segments []
                  = map to_float segments).
  { unfold FeatureGenerator. now rewrite FeatureGeneratorSingle_from by lia. }
  rewrite Hfeat.
  destruct (generator_trace KernelPolicyList selected) as [Hin Hout].
  split; [|split; [|split]].
  - rewrite filter_app, filter_init_events by reflexivity.
    cbn [app filter is_RegionBegin].
    now rewrite filter_generated by reflexivity.
  - apply in_or_app. right. now left.
  - intros Hk. destruct (Hin Hk) as [p [_ ->]].
    destruct (variant_trace_ends_region p) as [Hend [Hker Hlast]].
    rewrite !filter_app, !filter_init_events by reflexivity.
    cbn [filter is_RegionEnd is_kernel app]. repeat split; try assumption.
    rewrite <- Hlast.
    change (RegionBegin (map to_float segments) :: GetPolicyIndex
            :: map Generated (variant_trace p))
      with ([RegionBegin (map to_float segments); GetPolicyIndex]
            ++ map (@Generated F) (variant_trace p)).
    rewrite app_assoc. apply last_of_app.
    unfold variant_trace. destruct (PreLaunchKernel _); discriminate.
  - intros Hk. rewrite (Hout Hk). cbn [map].
    rewrite !filter_app, !filter_init_events by reflexivity.
    repeat split.
    now rewrite (last_of_app _ _ _ GetCallpathOffset) by discriminate.
Qed.

End Features.

Section Region.

Variable F : Type.
Variable to_float : Z -> F.

Lemma kernel_impl_counts (KernelPolicyList : list ExecutionPolicy)
  (segments : list Z) (selected : Z) (st : statics) :
  List.length (filter is_RegionNew
                 (fst (kernel_impl F to_float KernelPolicyList segments
                                   selected st)))
  = match apolloRegion st with None => 1%nat | Some _ => 0%nat end
  /\ apolloRegion (snd (kernel_impl F to_float KernelPolicyList segments
                                    selected st))
     = match apolloRegion st with
       | None => Some (List.length segments, List.length KernelPolicyList)
       | Some r => Some r
       end
  /\ policy_index (snd (kernel_impl F to_float KernelPolicyList segments
                                    selected st)) = selected.
Proof.
  unfold kernel_impl. cbn [fst snd apolloRegion policy_index].
  split; [|split; reflexivity].
  rewrite filter_app. cbn [app filter is_RegionNew].
  rewrite (filter_generated F) by reflexivity.
  rewrite app_nil_r. now destruct (apolloRegion st).
Qed.

Lemma kernel_impl_calls_with_region (KernelPolicyList : list ExecutionPolicy)
  (calls : list (list Z * Z)) :
  forall st r,
    apolloRegion st = Some r ->
    filter is_RegionNew
      (fst (kernel_impl_calls F to_float KernelPolicyList calls st)) = []
    /\ apolloRegion
         (snd (kernel_impl_calls F to_float KernelPolicyList calls st))
       = Some r.
Proof.
  induction calls as [|[segments selected] rest IH]; intros st r Hr.
  - simpl. now split.
  - cbn [kernel_impl_calls].
    destruct (kernel_impl_counts KernelPolicyList segments selected st)
      as [Hnew [Hreg _]].
    rewrite Hr in Hnew, Hreg.
    destruct (kernel_impl F to_float KernelPolicyList segments selected st)
      as [evs st'].
    cbn [fst snd] in Hnew, Hreg.
    destruct (IH st' r Hreg) as [Hnew' Hreg'].
    destruct (kernel_impl_calls F to_float KernelPolicyList rest st')
      as [evs' st''].
    cbn [fst snd] in *. split; [|exact Hreg'].
    rewrite filter_app, Hnew'. rewrite app_nil_r.
    now apply length_zero_iff_nil.
Qed.

(** X11: over any run of calls of [kernel_impl] from the initial statics,
    the Apollo region is created once, by the first call, with the first
    call's number of segments as its number of features and the length of
    the policy list as its number of policies; later calls reuse it. *)
Theorem region_is_created_once (KernelPolicyList : list ExecutionPolicy)
  (segments : list Z) (selected : Z) (rest : list (list Z * Z)) :
  let run := kernel_impl_calls F to_float KernelPolicyList
               ((segments, selected) :: rest) statics_initial in
  filter is_RegionNew (fst run)
  = [RegionNew (List.length segments) (List.length KernelPolicyList)]
  /\ apolloRegion (snd run)
     = Some (List.length segments, List.length KernelPolicyList).
Proof.
  intros run. subst run. cbn [kernel_impl_calls].
  pose proof (kernel_impl_calls_with_region KernelPolicyList rest
                (snd (kernel_impl F to_float KernelPolicyList segments
                                  selected statics_initial))
                (List.length segments, List.length KernelPolicyList)
                eq_refl) as [Hnew Hreg].
  assert (Hfirst : filter is_RegionNew
                     (fst (kernel_impl F to_float KernelPolicyList segments
                                       selected statics_initial))
                   = [RegionNew (List.length segments)
                                (List.length KernelPolicyList)]).
  { unfold kernel_impl. cbn [fst statics_initial apolloRegion].
    rewrite filter_app. cbn [app filter is_RegionNew].
    now rewrite (filter_generated F) by reflexivity. }
  destruct (kernel_impl F to_float KernelPolicyList segments selected
                        statics_initial) as [evs st'].
  cbn [fst snd] in *.
  destruct (kernel_impl_calls F to_float KernelPolicyList rest st')
    as [evs' st''].
  cbn [fst snd] in *. split; [|exact Hreg].
  now rewrite filter_app, Hfirst, Hnew.
Qed.

End Region.

End ApolloImplFacts.

(* ================================================================== *)
(** ** Sums over indirection arrays and hybrid index sets *)

Module OmpSumFacts.
Import Machine Omp OmpExt RangeFacts OmpFacts.

Lemma range_indices_from_zero (n : Z) : range_indices 0 n = zrange n.
Proof.
  unfold range_indices. rewrite Z.sub_0_r.
  rewrite <- (map_id (zrange n)) at 2. apply map_ext. intros k. lia.
Qed.

Lemma map_nth_positions {A : Type} (l : list A) (d : A) :
  map (fun i => nth i l d) (seq 0 (List.length l)) = l.
Proof.
  induction l as [|a l IH]; simpl; [reflexivity|]. f_equal.
  rewrite <- seq_shift, map_map. exact IH.
Qed.

Lemma getIndex_positions (idx : list Z) :
  map (getIndex idx) (zrange (getLength idx)) = idx.
Proof.
  unfold getIndex, getLength, zrange. rewrite Nat2Z.id, map_map.
  transitivity (map (fun i => nth i idx 0) (seq 0 (List.length idx))).
  - apply map_ext. intros i. now rewrite Nat2Z.id.
  - apply map_nth_positions.
Qed.

Lemma nth_error_positions {A : Type} (l : list A) :
  map (fun k => nth_error l (Z.to_nat k)) (zrange (Z.of_nat (List.length l)))
  = map Some l.
Proof.
  unfold zrange. rewrite Nat2Z.id, map_map.
  induction l as [|a l IH]; simpl; [reflexivity|]. f_equal.
  rewrite <- seq_shift, map_map. rewrite <- IH.
  apply map_ext. intros i. rewrite !Nat2Z.id. reflexivity.
Qed.

Section SumReduction.

Variable T : Type.
Variable zero : T.
Variable add : T -> T -> T.
Hypothesis add_assoc : forall a b c, add a (add b c) = add (add a b) c.
Hypothesis add_comm : forall a b, add a b = add b a.
Hypothesis add_zero_r : forall a, add a zero = a.

Local Abbreviation total := (total T zero add).

(** A reduction whose loop runs the positions [sched] and adds
    [contribution k] for position [k]. *)
Lemma reduction_adds (rt : omp_runtime) (contribution : Z -> T)
  (sched : list (Z * nat)) (positions : list Z) (s : T) :
  Permutation (map fst sched) positions ->
  Forall (fun it => (snd it < omp_get_max_threads rt)%nat) sched ->
  fold_left add
    (fold_left (sum_iteration T zero (fun k p => add p (contribution k)))
               sched (repeat zero (omp_get_max_threads rt)))
    s
  = add s (total (map contribution positions)).
Proof.
  intros Hperm Htids.
  rewrite (fold_left_add_total T zero add add_assoc add_zero_r).
  rewrite (partials_accumulate T zero add add_assoc add_comm add_zero_r)
    by (now rewrite repeat_length).
  rewrite (total_repeat_zero T zero add add_zero_r).
  rewrite (add_zero_l T zero add add_comm add_zero_r). f_equal.
  apply (total_permutation T zero add add_assoc add_comm).
  now apply Permutation_map.
Qed.

Lemma forall_sum_additive (rt : omp_runtime) (begin end_ : Z) (s : T)
  (f : Z -> T) :
  omp_conforms rt ->
  forall_sum T zero add rt begin end_ s (fun ii p => add p (f ii))
  = add s (total (map f (range_indices begin end_))).
Proof.
  intros Hrt. destruct (Hrt begin end_) as [Hperm Htids].
  unfold forall_sum. now apply reduction_adds.
Qed.

Lemma forall_sum_indirect_additive (rt : omp_runtime) (idx : Z -> Z)
  (len : Z) (s : T) (f : Z -> T) :
  omp_conforms rt ->
  forall_sum_indirect T zero add rt idx len s (fun i p => add p (f i))
  = add s (total (map (fun k => f (idx k)) (zrange len))).
Proof.
  intros Hrt. destruct (Hrt 0 len) as [Hperm Htids].
  rewrite range_indices_from_zero in Hperm.
  unfold forall_sum_indirect.
  now apply (reduction_adds rt (fun k => f (idx k))).
Qed.

(** X12: [forall_sum] over an indirection array, with a body that adds a
    contribution [f i] for the index [i] it is called on, ends with the
    initial [*sum] plus the contributions of the listed indices, an index
    listed twice counting twice; an empty array leaves [*sum] as it is. *)
Theorem forall_sum_indirect_accumulates (rt : omp_runtime) (idx : list Z)
  (s0 : T) (f : Z -> T) :
  omp_conforms rt ->
  forall_sum_indirect T zero add rt (getIndex idx) (getLength idx) s0
                      (fun i p => add p (f i))
  = add s0 (total (map f idx))
  /\ (idx = [] ->
      forall_sum_indirect T zero add rt (getIndex idx) (getLength idx) s0
                          (fun i p => add p (f i)) = s0).
Proof.
  intros Hrt.
  assert (H : forall_sum_indirect T zero add rt (getIndex idx)
                (getLength idx) s0 (fun i p => add p (f i))
              = add s0 (total (map f idx))).
  { rewrite forall_sum_indirect_additive by assumption.
    rewrite <- (map_map (getIndex idx) f). now rewrite getIndex_positions. }
  split; [exact H|]. intros ->. rewrite H. simpl. apply add_zero_r.
Qed.

End SumReduction.

Lemma forall_sum_indirect_accumulates_witness :
  forall_sum_indirect Z 0 Z.add two_threads (getIndex [7; 3; 7])
                      (getLength [7; 3; 7]) 100 (fun i p => p + i)
  = 100 + (7 + (3 + (7 + 0))).
Proof.
  exact (proj1 (forall_sum_indirect_accumulates Z 0 Z.add Z.add_assoc
                  Z.add_comm Z.add_0_r two_threads [7; 3; 7] 100
                  (fun i => i) two_threads_conforms)).
Defined.

Section HybridSum.

Variable T : Type.
Variable zero : T.
Variable add : T -> T -> T.
Hypothesis add_assoc : forall a b c, add a (add b c) = add (add a b) c.
Hypothesis add_comm : forall a b, add a b = add b a.
Hypothesis add_zero_r : forall a, add a zero = a.

Local Abbreviation total := (total T zero add).

Lemma indices_at_all (is_ : HybridISet) :
  flat_map (indices_at is_) (zrange (Z.of_nat (List.length is_)))
  = flat_map seg_indices is_.
Proof.
  unfold indices_at.
  rewrite <- (KernelFacts.flat_map_map
                (fun o => match o with
                          | Some seg => seg_indices seg
                          | None => []
                          end)
                (fun k => nth_error is_ (Z.to_nat k))).
  rewrite nth_error_positions. now rewrite KernelFacts.flat_map_map.
Qed.

Lemma forall_sum_segment_additive (rt : omp_runtime) (seg : Segment)
  (p : T) (f : Z -> T) :
  omp_conforms rt -> well_typed seg = true ->
  forall_sum_segment T zero add rt seg p (fun i q => add q (f i))
  = Some (add p (total (map f (seg_indices seg)))).
Proof.
  intros Hrt Hwt. unfold forall_sum_segment, seg_indices, well_typed in *.
  destruct (m_type seg), (m_segment seg); try discriminate Hwt;
    try (simpl; now rewrite add_zero_r).
  - now rewrite (forall_sum_additive T zero add add_assoc add_comm
                   add_zero_r).
  - rewrite (forall_sum_indirect_additive T zero add add_assoc add_comm
               add_zero_r) by assumption.
    rewrite <- (map_map (getIndex idx) f). now rewrite getIndex_positions.
Qed.

Lemma segment_partials_accumulate (rt : omp_runtime) (is_ : HybridISet)
  (f : Z -> T) :
  omp_conforms rt -> forallb well_typed is_ = true ->
  forall (sched : list (Z * nat)) (sum_tmp : list T),
    Forall (fun it => (snd it < List.length sum_tmp)%nat) sched ->
    Forall (fun it => 0 <= fst it < Z.of_nat (List.length is_)) sched ->
    exists sum_tmp',
      fold_left (segment_iteration T zero add rt is_
                                   (fun i q => add q (f i)))
                sched (Some sum_tmp)
      = Some sum_tmp'
      /\ total sum_tmp'
         = add (total sum_tmp)
               (total (map f (flat_map (indices_at is_) (map fst sched)))).
Proof.
  intros Hrt Hwt. induction sched as [|[k tid] sched IH];
    intros sum_tmp Htids Hks.
  - exists sum_tmp. simpl. now rewrite add_zero_r.
  - inversion Htids as [|? ? Htid Htids']; subst.
    inversion Hks as [|? ? Hk Hks']; subst. simpl in Htid, Hk.
    cbn [fold_left]. unfold segment_iteration at 2. cbn [fst snd].
    destruct (nth_error is_ (Z.to_nat k)) as [seg|] eqn:Hseg.
    2:{ apply nth_error_None in Hseg. lia. }
    assert (Hseg_wt : well_typed seg = true).
    { rewrite forallb_forall in Hwt. apply Hwt.
      eapply nth_error_In. exact Hseg. }
    rewrite forall_sum_segment_additive by assumption.
    destruct (IH (store sum_tmp tid
                    (add (nth tid sum_tmp zero)
                         (total (map f (seg_indices seg))))))
      as [sum_tmp' [Hrun Htotal]].
    + now rewrite store_length.
    + exact Hks'.
    + exists sum_tmp'. split; [exact Hrun|]. rewrite Htotal.
      rewrite (total_store_add T zero add add_assoc add_comm) by assumption.
      cbn [map flat_map fst]. unfold indices_at at 2. rewrite Hseg.
      rewrite map_app.
      rewrite (total_app T zero add add_assoc add_comm add_zero_r).
      now rewrite add_assoc.
Qed.

(** X13: the hybrid [forall_sum], with a body that adds a contribution
    [f i] for the index [i] it is called on, ends with the initial [*sum]
    plus the contributions of all indices of the range and unstructured
    segments; segments of any other type, range-stride ones among them,
    add nothing. *)
Theorem forall_sum_HybridISet_accumulates (rt : omp_runtime)
  (is_ : HybridISet) (s0 : T) (f : Z -> T) :
  omp_conforms rt -> forallb well_typed is_ = true ->
  forall_sum_HybridISet T zero add rt is_ s0 (fun i q => add q (f i))
  = Some (add s0 (total (map f (flat_map seg_indices is_)))).
Proof.
  intros Hrt Hwt. unfold forall_sum_HybridISet.
  destruct (Hrt 0 (Z.of_nat (List.length is_))) as [Hperm Htids].
  rewrite range_indices_from_zero in Hperm.
  destruct (segment_partials_accumulate rt is_ f Hrt Hwt
              (omp_parallel_for rt 0 (Z.of_nat (List.length is_)))
              (repeat zero (omp_get_max_threads rt)))
    as [sum_tmp' [-> Htotal]].
  - now rewrite repeat_length.
  - apply Forall_forall. intros it Hit. apply in_zrange.
    eapply Permutation_in; [exact Hperm|]. now apply in_map.
  - rewrite (fold_left_add_total T zero add add_assoc add_zero_r).
    rewrite Htotal.
    rewrite (total_repeat_zero T zero add add_zero_r).
    rewrite (add_zero_l T zero add add_comm add_zero_r).
    f_equal. f_equal. rewrite <- indices_at_all.
    apply (total_permutation T zero add add_assoc add_comm).
    apply Permutation_map. now apply Permutation_flat_map.
Qed.

End HybridSum.

Lemma forall_sum_HybridISet_accumulates_witness :
  forall_sum_HybridISet Z 0 Z.add two_threads
    [mkSegment _Range_ (RangeISet 0 3);
     mkSegment _RangeStride_ (RangeStrideISet 0 10 2);
     mkSegment _Unstructured_ (UnstructuredISet [7; 9])]
    100 (fun i q => q + i)
  = Some (100 + (0 + (1 + (2 + (7 + (9 + 0)))))).
Proof.
  apply (forall_sum_HybridISet_accumulates Z 0 Z.add Z.add_assoc Z.add_comm
           Z.add_0_r two_threads
           [mkSegment _Range_ (RangeISet 0 3);
            mkSegment _RangeStride_ (RangeStrideISet 0 10 2);
            mkSegment _Unstructured_ (UnstructuredISet [7; 9])]
           100 (fun i => i) two_threads_conforms).
  reflexivity.
Defined.

(** X14: under [omp_parallel_for_exec], the hybrid [forall] calls the body
    on every index of every range segment and every listed index of every
    unstructured segment, and on nothing else, when the segments' objects
    have the types their tags announce. *)
Theorem forall_HybridISet_visits_segments (is_ : HybridISet) :
  forallb well_typed is_ = true ->
  forall_HybridISet is_ = Some (flat_map seg_indices is_).
Proof.
  induction is_ as [|seg rest IH]; intros Hwt; [reflexivity|].
  cbn [forallb] in Hwt. apply andb_prop in Hwt. destruct Hwt as [Hseg Hrest].
  cbn [forall_HybridISet flat_map]. rewrite (IH Hrest).
  unfold forall_segment, seg_indices, well_typed in *.
  destruct (m_type seg), (m_segment seg); try discriminate Hseg; reflexivity.
Qed.

Lemma forall_HybridISet_visits_segments_witness :
  forall_HybridISet
    [mkSegment _Range_ (RangeISet 0 3);
     mkSegment _RangeStride_ (RangeStrideISet 0 10 2);
     mkSegment _Unstructured_ (UnstructuredISet [7; 9])]
  = Some (flat_map seg_indices
            [mkSegment _Range_ (RangeISet 0 3);
             mkSegment _RangeStride_ (RangeStrideISet 0 10 2);
             mkSegment _Unstructured_ (UnstructuredISet [7; 9])]).
Proof.
  apply (forall_HybridISet_visits_segments
           [mkSegment _Range_ (RangeISet 0 3);
            mkSegment _RangeStride_ (RangeStrideISet 0 10 2);
            mkSegment _Unstructured_ (UnstructuredISet [7; 9])]).
  reflexivity.
Defined.

End OmpSumFacts.


(* ================================================================== *)
(** ** The min-loc and max-loc reductions *)

Module OmpLocFacts.
Import Machine Omp OmpExt RangeFacts OmpFacts OmpSumFacts.

Lemma nth_store_same {A : Type} (l : list A) (i : nat) (v d : A) :
  (i < List.length l)%nat -> nth i (store l i v) d = v.
Proof.
  revert i. induction l as [|a l IH]; intros [|i] Hi; simpl in *;
    try lia; auto. apply IH. lia.
Qed.

Lemma nth_store_other {A : Type} (l : list A) (i j : nat) (v d : A) :
  i <> j -> nth j (store l i v) d = nth j l d.
Proof.
  revert i j. induction l as [|a l IH]; intros [|i] [|j] Hne; simpl;
    auto; try congruence.
Qed.

Section Loc.

Variable better : Z -> Z -> bool.
Hypothesis better_irrefl : forall a, better a a = false.
Hypothesis better_trans :
  forall a b c, better a b = true -> better b c = true -> better a c = true.
Hypothesis better_ntrans :
  forall a b c, better a b = false -> better b c = false -> better a c = false.

(** The value compared and the location recorded at a loop position. *)
Variables v p : Z -> Z.
Variables min0 loc0 : Z.
Variable n : nat.

Local Abbreviation slot_ok := (slot_ok better v p min0 loc0).
Local Abbreviation partials_ok := (partials_ok better v p min0 loc0 n).

(** A value that beats one nothing of [w] beats is not beaten by [w]. *)
Lemma not_beaten_by (w u a : Z) :
  better w a = false -> better u a = true -> better w u = false.
Proof.
  intros Hwa Hua. destruct (better w u) eqn:Hwu; [|reflexivity].
  rewrite (better_trans w u a Hwu Hua) in Hwa. discriminate.
Qed.

Lemma beats_through (u a m : Z) :
  better u a = true -> better m a = false -> better u m = true.
Proof.
  intros Hua Hma. destruct (better u m) eqn:Hum; [reflexivity|].
  rewrite (better_ntrans u m a Hum Hma) in Hua. discriminate.
Qed.

Lemma partials_ok_ext (seen seen' : Z -> Prop) (tmp : list Z * list Z) :
  (forall i, seen i <-> seen' i) ->
  partials_ok seen tmp -> partials_ok seen' tmp.
Proof.
  intros Hext [H1 [H2 [H3 H4]]]. split; [exact H1|]. split; [exact H2|].
  split.
  - intros t Ht. destruct (H3 t Ht) as [H5 [H6|[pos [H6 H7]]]].
    + split; [exact H5|now left].
    + split; [exact H5|right]. exists pos. split; [now apply Hext|exact H7].
  - intros ii Hii. apply H4. now apply Hext.
Qed.

Lemma loc_iteration_ok (seen : Z -> Prop) (tmp : list Z * list Z)
  (k : Z) (tid : nat) :
  partials_ok seen tmp -> (tid < n)%nat ->
  partials_ok (fun i => i = k \/ seen i)
              (loc_iteration (loc_body_at better v p) tmp (k, tid)).
Proof.
  intros [Hlm [Hll [Hslots Hcover]]] Htid.
  unfold OmpExt.partials_ok, loc_iteration, loc_body_at. cbn [fst snd].
  destruct (Hslots tid Htid) as [Hm0 Hslot].
  destruct (better (v k) (nth tid (fst tmp) 0)) eqn:Hb; cbn [fst snd].
  - split; [now rewrite store_length|]. split; [now rewrite store_length|].
    split.
    + intros t Ht. destruct (Nat.eq_dec tid t) as [<-|Hne].
      * rewrite !nth_store_same by lia. split.
        -- eapply not_beaten_by; eassumption.
        -- right. exists k. split; [now left|]. split; [reflexivity|].
           split; [reflexivity|]. eapply beats_through; eassumption.
      * rewrite !nth_store_other by assumption.
        destruct (Hslots t Ht) as [H1 [H2|[pos [H2 H3]]]]; split; auto.
        right. exists pos. split; [now right|exact H3].
    + intros i [->|Hi].
      * exists tid. split; [assumption|]. now rewrite nth_store_same by lia.
      * destruct (Hcover i Hi) as [t [Ht Hbt]]. exists t. split; [assumption|].
        destruct (Nat.eq_dec tid t) as [<-|Hne].
        -- rewrite nth_store_same by lia. eapply not_beaten_by; eassumption.
        -- now rewrite nth_store_other by assumption.
  - assert (Hsame : forall (l : list Z) t,
              List.length l = n -> nth t (store l tid (nth tid l 0)) 0
                                   = nth t l 0).
    { intros l t Hl. destruct (Nat.eq_dec tid t) as [<-|Hne].
      - now rewrite nth_store_same by lia.
      - now rewrite nth_store_other by assumption. }
    split; [now rewrite store_length|]. split; [now rewrite store_length|].
    split.
    + intros t Ht. rewrite !Hsame by assumption.
      destruct (Hslots t Ht) as [H1 [H2|[pos [H2 H3]]]]; split; auto.
      right. exists pos. split; [now right|exact H3].
    + intros i [->|Hi].
      * exists tid. split; [assumption|]. now rewrite Hsame.
      * destruct (Hcover i Hi) as [t [Ht Hbt]]. exists t. split; [assumption|].
        now rewrite Hsame.
Qed.

Lemma parallel_loop_ok (sched : list (Z * nat)) :
  forall (seen : Z -> Prop) (tmp : list Z * list Z),
    partials_ok seen tmp ->
    Forall (fun it => (snd it < n)%nat) sched ->
    partials_ok (fun i => In i (map fst sched) \/ seen i)
                (fold_left (loc_iteration (loc_body_at better v p)) sched tmp).
Proof.
  induction sched as [|[k tid] sched IH]; intros seen tmp Hok Htids.
  - simpl. apply (partials_ok_ext seen); [|exact Hok]. intros i. tauto.
  - inversion Htids as [|? ? Htid Htids']; subst. simpl in Htid.
    cbn [fold_left].
    pose proof (IH _ _ (loc_iteration_ok seen tmp k tid Hok Htid) Htids')
      as Hrec.
    eapply partials_ok_ext; [|exact Hrec].
    intros i. simpl. split; intros H; intuition congruence.
Qed.

(** The final loop leaves in slot 0 a pair of one of the slots whose value
    no slot's value beats. *)
Lemma reduce_loop_ok (tmp : list Z * list Z) :
  List.length (fst tmp) = n -> List.length (snd tmp) = n ->
  forall k, (k < n)%nat ->
    let tmp' := fold_left (loc_reduce better) (seq 1 k) tmp in
    List.length (fst tmp') = n /\ List.length (snd tmp') = n
    /\ (forall j, (1 <= j)%nat ->
          nth j (fst tmp') 0 = nth j (fst tmp) 0
          /\ nth j (snd tmp') 0 = nth j (snd tmp) 0)
    /\ (exists t, (t <= k)%nat
                  /\ nth 0 (fst tmp') 0 = nth t (fst tmp) 0
                  /\ nth 0 (snd tmp') 0 = nth t (snd tmp) 0)
    /\ (forall j, (j <= k)%nat ->
          better (nth j (fst tmp) 0) (nth 0 (fst tmp') 0) = false).
Proof.
  intros Hlm Hll. induction k as [|k IH]; intros Hk; cbv zeta.
  - simpl. repeat split; auto. exists 0%nat. auto.
    intros j Hj. replace j with 0%nat by lia. apply better_irrefl.
  - rewrite seq_S, fold_left_app. cbn [fold_left Nat.add].
    destruct (IH ltac:(lia)) as [H1 [H2 [H3 [[t [Ht [Ht1 Ht2]]] H5]]]].
    set (tmp' := fold_left (loc_reduce better) (seq 1 k) tmp) in *.
    unfold loc_reduce.
    destruct (H3 (S k) ltac:(lia)) as [Hm Hl]. rewrite Hm, Hl.
    destruct (better (nth (S k) (fst tmp) 0) (nth 0 (fst tmp') 0)) eqn:Hb;
      cbn [fst snd].
    + split; [now rewrite store_length|]. split; [now rewrite store_length|].
      split; [|split].
      * intros j Hj. rewrite !nth_store_other by lia. now apply H3.
      * exists (S k). rewrite !nth_store_same by lia. auto.
      * intros j Hj. rewrite nth_store_same by lia.
        destruct (Nat.eq_dec j (S k)) as [->|Hne]; [apply better_irrefl|].
        eapply not_beaten_by; [apply H5; lia|exact Hb].
    + split; [assumption|]. split; [assumption|]. split; [assumption|].
      split.
      * exists t. auto.
      * intros j Hj. destruct (Nat.eq_dec j (S k)) as [->|Hne];
          [exact Hb|apply H5; lia].
Qed.

(** The parallel loop over the positions [sched] followed by the final
    loop: the pair left in slot 0 is not beaten by the initial value nor by
    the value at any position, and it is the initial pair or the value and
    location of a position that beats the initial value. *)
Lemma loc_reduction_best (sched : list (Z * nat)) :
  (1 <= n)%nat -> Forall (fun it => (snd it < n)%nat) sched ->
  let tmp := fold_left (loc_reduce better) (seq 1 (n - 1))
               (fold_left (loc_iteration (loc_body_at better v p)) sched
                          (repeat min0 n, repeat loc0 n)) in
  let m := nth 0 (fst tmp) 0 in
  let l := nth 0 (snd tmp) 0 in
  better min0 m = false
  /\ (forall pos, In pos (map fst sched) -> better (v pos) m = false)
  /\ ((m = min0 /\ l = loc0)
      \/ (exists pos, In pos (map fst sched) /\ l = p pos /\ v pos = m
                      /\ better m min0 = true)).
Proof.
  intros Hpos Htids. cbv zeta.
  assert (Hinit : partials_ok (fun _ => False)
                              (repeat min0 n, repeat loc0 n)).
  { unfold OmpExt.partials_ok. cbn [fst snd]. rewrite !repeat_length.
    split; [reflexivity|]. split; [reflexivity|]. split.
    - intros t Ht. split.
      + rewrite nth_repeat_lt by assumption. apply better_irrefl.
      + left. now rewrite !nth_repeat_lt by assumption.
    - intros ii []. }
  pose proof (parallel_loop_ok _ _ _ Hinit Htids)
    as [Hlm [Hll [Hslots Hcover]]].
  set (tmp := fold_left (loc_iteration (loc_body_at better v p)) sched
                        (repeat min0 n, repeat loc0 n)) in *.
  destruct (reduce_loop_ok tmp Hlm Hll (n - 1) ltac:(lia))
    as [_ [_ [_ [[t [Ht [Ht1 Ht2]]] Hbest]]]].
  rewrite Ht1, Ht2.
  destruct (Hslots t ltac:(lia)) as [Hm0 Hslot].
  split; [exact Hm0|]. split.
  - intros pos Hpos'.
    destruct (Hcover pos (or_introl Hpos')) as [t' [Ht' Hb']].
    apply (better_ntrans _ _ _ Hb'). rewrite <- Ht1. apply Hbest. lia.
  - destruct Hslot as [H|[pos [[H1|[]] H2]]]; [now left|right].
    exists pos. auto.
Qed.

End Loc.

Section Reductions.

Variable better : Z -> Z -> bool.
Hypothesis better_irrefl : forall a, better a a = false.
Hypothesis better_trans :
  forall a b c, better a b = true -> better b c = true -> better a c = true.
Hypothesis better_ntrans :
  forall a b c, better a b = false -> better b c = false -> better a c = false.

(** Over an index range. *)
Lemma forall_loc_best (val : Z -> Z) (min0 loc0 : Z) (rt : omp_runtime)
  (begin end_ : Z) :
  omp_conforms rt -> (1 <= omp_get_max_threads rt)%nat ->
  let r := forall_loc better rt begin end_ min0 loc0 (loc_body better val) in
  better min0 (fst r) = false
  /\ (forall ii, In ii (range_indices begin end_) ->
        better (val ii) (fst r) = false)
  /\ ((fst r = min0 /\ snd r = loc0)
      \/ (In (snd r) (range_indices begin end_)
          /\ val (snd r) = fst r /\ better (fst r) min0 = true)).
Proof.
  intros Hrt Hn. cbv zeta. unfold forall_loc. cbn [fst snd].
  destruct (Hrt begin end_) as [Hperm Htids].
  change (loc_body better val) with (loc_body_at better val (fun k => k)).
  destruct (loc_reduction_best better better_irrefl better_trans
              better_ntrans val (fun k => k) min0 loc0
              (omp_get_max_threads rt) (omp_parallel_for rt begin end_)
              Hn Htids) as [H1 [H2 H3]].
  split; [exact H1|]. split.
  - intros ii Hii. apply H2.
    eapply Permutation_in; [apply Permutation_sym|]; eassumption.
  - destruct H3 as [H3|[pos [H3 [H4 [H5 H6]]]]]; [now left|right].
    rewrite H4. repeat split; try assumption.
    eapply Permutation_in; eassumption.
Qed.

(** Over the indices an unstructured index set lists. *)
Lemma forall_loc_indirect_best (val : Z -> Z) (min0 loc0 : Z)
  (rt : omp_runtime) (idx : list Z) :
  omp_conforms rt -> (1 <= omp_get_max_threads rt)%nat ->
  let r := forall_loc_indirect better rt (getIndex idx) (getLength idx)
             min0 loc0 (loc_body better val) in
  better min0 (fst r) = false
  /\ (forall i, In i idx -> better (val i) (fst r) = false)
  /\ ((fst r = min0 /\ snd r = loc0)
      \/ (In (snd r) idx /\ val (snd r) = fst r
          /\ better (fst r) min0 = true)).
Proof.
  intros Hrt Hn. cbv zeta. unfold forall_loc_indirect. cbn [fst snd].
  destruct (Hrt 0 (getLength idx)) as [Hperm Htids].
  rewrite range_indices_from_zero in Hperm.
  change (fun k => loc_body better val (getIndex idx k))
    with (loc_body_at better (fun k => val (getIndex idx k)) (getIndex idx)).
  destruct (loc_reduction_best better better_irrefl better_trans
              better_ntrans (fun k => val (getIndex idx k)) (getIndex idx)
              min0 loc0 (omp_get_max_threads rt)
              (omp_parallel_for rt 0 (getLength idx)) Hn Htids)
    as [H1 [H2 H3]].
  assert (Hlisted : forall pos,
            In pos (map fst (omp_parallel_for rt 0 (getLength idx))) ->
            In (getIndex idx pos) idx).
  { intros pos Hpos. rewrite <- (getIndex_positions idx) at 2.
    apply in_map. eapply Permutation_in; eassumption. }
  split; [exact H1|]. split.
  - intros i Hi. rewrite <- (getIndex_positions idx) in Hi.
    apply in_map_iff in Hi. destruct Hi as [pos [<- Hpos]].
    apply H2. eapply Permutation_in; [apply Permutation_sym|]; eassumption.
  - destruct H3 as [H3|[pos [H3 [H4 [H5 H6]]]]]; [now left|right].
    rewrite H4. repeat split; try assumption. now apply Hlisted.
Qed.

End Reductions.

Lemma ltb_trans (a b c : Z) :
  (a <? b) = true -> (b <? c) = true -> (a <? c) = true.
Proof. rewrite !Z.ltb_lt. lia. Qed.

Lemma ltb_ntrans (a b c : Z) :
  (a <? b) = false -> (b <? c) = false -> (a <? c) = false.
Proof. rewrite !Z.ltb_ge. lia. Qed.

Lemma gtb_irrefl (a : Z) : (a >? a) = false.
Proof. rewrite Z.gtb_ltb. apply Z.ltb_irrefl. Qed.

Lemma gtb_trans (a b c : Z) :
  (a >? b) = true -> (b >? c) = true -> (a >? c) = true.
Proof. rewrite !Z.gtb_ltb, !Z.ltb_lt. lia. Qed.

Lemma gtb_ntrans (a b c : Z) :
  (a >? b) = false -> (b >? c) = false -> (a >? c) = false.
Proof. rewrite !Z.gtb_ltb, !Z.ltb_ge. lia. Qed.

(** X15: [forall_minloc] with the usual body returns the least of the
    initial [*min] and the values over the range; the location returned is
    an index of the range holding that value when it is below the initial
    [*min], and the initial [*loc] otherwise, as over an empty range. *)
Theorem forall_minloc_finds_minimum (rt : omp_runtime) (begin end_ : Z)
  (min0 loc0 : Z) (val : Z -> Z) :
  omp_conforms rt -> (1 <= omp_get_max_threads rt)%nat ->
  let r := forall_minloc rt begin end_ min0 loc0 (loc_body Z.ltb val) in
  fst r <= min0
  /\ (forall ii, In ii (range_indices begin end_) -> fst r <= val ii)
  /\ ((fst r = min0 /\ snd r = loc0)
      \/ (In (snd r) (range_indices begin end_)
          /\ val (snd r) = fst r /\ fst r < min0))
  /\ (end_ <= begin -> r = (min0, loc0)).
Proof.
  intros Hrt Hn r.
  destruct (forall_loc_best Z.ltb Z.ltb_irrefl ltb_trans ltb_ntrans val
              min0 loc0 rt begin end_ Hrt Hn) as [H1 [H2 H3]].
  fold forall_minloc in H1, H2, H3. fold r in H1, H2, H3.
  split; [now apply Z.ltb_ge|]. split.
  - intros ii Hii. apply Z.ltb_ge. now apply H2.
  - split.
    + destruct H3 as [H3|[H3 [H4 H5]]]; [now left|right].
      repeat split; try assumption. now apply Z.ltb_lt.
    + intros Hempty. rewrite (range_indices_empty _ _ Hempty) in H3.
      destruct H3 as [[H3 H4]|[[] _]]. destruct r. simpl in *. congruence.
Qed.

Lemma forall_minloc_finds_minimum_witness :
  let r := forall_minloc two_threads 0 6 100 (-1)
             (loc_body Z.ltb (fun i => (i - 3) * (i - 3))) in
  fst r <= 100
  /\ (forall ii, In ii (range_indices 0 6) -> fst r <= (ii - 3) * (ii - 3))
  /\ ((fst r = 100 /\ snd r = -1)
      \/ (In (snd r) (range_indices 0 6)
          /\ (snd r - 3) * (snd r - 3) = fst r /\ fst r < 100))
  /\ (6 <= 0 -> r = (100, -1)).
Proof.
  apply (forall_minloc_finds_minimum two_threads 0 6 100 (-1)
           (fun i => (i - 3) * (i - 3)) two_threads_conforms).
  simpl. lia.
Defined.

(** X16: [forall_maxloc] with the usual body returns the greatest of the
    initial [*max] and the values over the range; the location returned is
    an index of the range holding that value when it is above the initial
    [*max], and the initial [*loc] otherwise, as over an empty range. *)
Theorem forall_maxloc_finds_maximum (rt : omp_runtime) (begin end_ : Z)
  (max0 loc0 : Z) (val : Z -> Z) :
  omp_conforms rt -> (1 <= omp_get_max_threads rt)%nat ->
  let r := forall_maxloc rt begin end_ max0 loc0 (loc_body Z.gtb val) in
  max0 <= fst r
  /\ (forall ii, In ii (range_indices begin end_) -> val ii <= fst r)
  /\ ((fst r = max0 /\ snd r = loc0)
      \/ (In (snd r) (range_indices begin end_)
          /\ val (snd r) = fst r /\ max0 < fst r))
  /\ (end_ <= begin -> r = (max0, loc0)).
Proof.
  intros Hrt Hn r.
  destruct (forall_loc_best Z.gtb gtb_irrefl gtb_trans gtb_ntrans val
              max0 loc0 rt begin end_ Hrt Hn) as [H1 [H2 H3]].
  fold forall_maxloc in H1, H2, H3. fold r in H1, H2, H3.
  rewrite Z.gtb_ltb in H1. apply Z.ltb_ge in H1.
  split; [exact H1|]. split.
  - intros ii Hii. specialize (H2 ii Hii).
    rewrite Z.gtb_ltb in H2. now apply Z.ltb_ge in H2.
  - split.
    + destruct H3 as [H3|[H3 [H4 H5]]]; [now left|right].
      repeat split; try assumption.
      rewrite Z.gtb_ltb in H5. now apply Z.ltb_lt in H5.
    + intros Hempty. rewrite (range_indices_empty _ _ Hempty) in H3.
      destruct H3 as [[H3 H4]|[[] _]]. destruct r. simpl in *. congruence.
Qed.

Lemma forall_maxloc_finds_maximum_witness :
  let r := forall_maxloc two_threads 0 6 (-5) (-1)
             (loc_body Z.gtb (fun i => (i - 3) * (i - 3))) in
  -5 <= fst r
  /\ (forall ii, In ii (range_indices 0 6) -> (ii - 3) * (ii - 3) <= fst r)
  /\ ((fst r = -5 /\ snd r = -1)
      \/ (In (snd r) (range_indices 0 6)
          /\ (snd r - 3) * (snd r - 3) = fst r /\ -5 < fst r))
  /\ (6 <= 0 -> r = (-5, -1)).
Proof.
  apply (forall_maxloc_finds_maximum two_threads 0 6 (-5) (-1)
           (fun i => (i - 3) * (i - 3)) two_threads_conforms).
  simpl. lia.
Defined.

(** X19: over an indirection array, [forall_minloc] with the usual body
    returns the least of the initial [*min] and the values at the listed
    indices, with a listed index holding it when it is below the initial
    [*min] and the initial [*loc] otherwise; [forall_maxloc] likewise for
    the greatest.  The location is the index listed, not its position in
    the array. *)
Theorem forall_minmaxloc_indirect_find_extrema (rt : omp_runtime)
  (idx : list Z) (m0 loc0 : Z) (val : Z -> Z) :
  omp_conforms rt -> (1 <= omp_get_max_threads rt)%nat ->
  let lo := forall_minloc_indirect rt (getIndex idx) (getLength idx) m0 loc0
              (loc_body Z.ltb val) in
  let hi := forall_maxloc_indirect rt (getIndex idx) (getLength idx) m0 loc0
              (loc_body Z.gtb val) in
  (fst lo <= m0
   /\ (forall i, In i idx -> fst lo <= val i)
   /\ ((fst lo = m0 /\ snd lo = loc0)
       \/ (In (snd lo) idx /\ val (snd lo) = fst lo /\ fst lo < m0)))
  /\ (m0 <= fst hi
      /\ (forall i, In i idx -> val i <= fst hi)
      /\ ((fst hi = m0 /\ snd hi = loc0)
          \/ (In (snd hi) idx /\ val (snd hi) = fst hi /\ m0 < fst hi))).
Proof.
  intros Hrt Hn lo hi. split.
  - destruct (forall_loc_indirect_best Z.ltb Z.ltb_irrefl ltb_trans
                ltb_ntrans val m0 loc0 rt idx Hrt Hn) as [H1 [H2 H3]].
    fold forall_minloc_indirect in H1, H2, H3. fold lo in H1, H2, H3.
    split; [now apply Z.ltb_ge|]. split.
    + intros i Hi. apply Z.ltb_ge. now apply H2.
    + destruct H3 as [H3|[H3 [H4 H5]]]; [now left|right].
      repeat split; try assumption. now apply Z.ltb_lt.
  - destruct (forall_loc_indirect_best Z.gtb gtb_irrefl gtb_trans
                gtb_ntrans val m0 loc0 rt idx Hrt Hn) as [H1 [H2 H3]].
    fold forall_maxloc_indirect in H1, H2, H3. fold hi in H1, H2, H3.
    rewrite Z.gtb_ltb in H1. apply Z.ltb_ge in H1.
    split; [exact H1|]. split.
    + intros i Hi. specialize (H2 i Hi).
      rewrite Z.gtb_ltb in H2. now apply Z.ltb_ge in H2.
    + destruct H3 as [H3|[H3 [H4 H5]]]; [now left|right].
      repeat split; try assumption.
      rewrite Z.gtb_ltb in H5. now apply Z.ltb_lt in H5.
Qed.

Lemma forall_minmaxloc_indirect_find_extrema_witness :
  let lo := forall_minloc_indirect two_threads (getIndex [7; 3; 9])
              (getLength [7; 3; 9]) 50 (-1) (loc_body Z.ltb (fun i => i * i)) in
  let hi := forall_maxloc_indirect two_threads (getIndex [7; 3; 9])
              (getLength [7; 3; 9]) 50 (-1) (loc_body Z.gtb (fun i => i * i)) in
  (fst lo <= 50
   /\ (forall i, In i [7; 3; 9] -> fst lo <= i * i)
   /\ ((fst lo = 50 /\ snd lo = -1)
       \/ (In (snd lo) [7; 3; 9] /\ snd lo * snd lo = fst lo /\ fst lo < 50)))
  /\ (50 <= fst hi
      /\ (forall i, In i [7; 3; 9] -> i * i <= fst hi)
      /\ ((fst hi = 50 /\ snd hi = -1)
          \/ (In (snd hi) [7; 3; 9] /\ snd hi * snd hi = fst hi
              /\ 50 < fst hi))).
Proof.
  apply (forall_minmaxloc_indirect_find_extrema two_threads [7; 3; 9] 50 (-1)
           (fun i => i * i) two_threads_conforms).
  simpl. lia.
Defined.

End OmpLocFacts.
